(** * The outbound message queue of core/message_queue.go

    A shallow embedding of [MessageQueue] and of its public operations,
    followed by the properties of the queue: nonce contiguity, the
    conditional pop of [RemoveNext], the nonce checks of [Enqueue] and
    [Requeue], bulk expiration and the read-only accessors.

    Conventions.
    - A Go [uint64] is a [Z] in the range [0, 2^64); additions and
      subtractions that the source performs on that type are reduced
      modulo [2^64] where they occur ([add64], [sub64]).
    - The Go map [queues] is a [gmap]; reading an absent key yields the nil
      slice, which is the empty list ([queue_of]).
    - A loop [for k, v := range m] visits the bindings of [m] once each, in
      an order the language leaves open; the model visits them in the order
      of [map_to_list], and the lemmas about such loops are proved for every
      duplicate-free order.
    - The lock and the metrics gauges live outside the value of the queue
      and are left out. *)

From Stdlib Require Import ZArith Lia.
From stdpp Require Import gmap strings list fin_maps.

Local Open Scope Z_scope.

(** ** Machine integers *)

Definition max_uint64 : Z := 2 ^ 64 - 1.

Definition is_uint64 (z : Z) : Prop := 0 <= z <= max_uint64.

(** [a + b] on [uint64]. *)
Definition add64 (a b : Z) : Z := (a + b) mod 2 ^ 64.

(** [a - b] on [uint64]. *)
Definition sub64 (a b : Z) : Z := (a - b) mod 2 ^ 64.

(** [l + int64(n)] on [int64] (two's complement). *)
Definition add_int64 (l n : Z) : Z := (l + n + 2 ^ 63) mod 2 ^ 64 - 2 ^ 63.

Section MessageQueue.

(** Modelled from the spec: [address.Address] is declared outside the
    sources at hand; it is "hashable and equality-comparable, usable as a
    map key", which is what [Countable] provides. *)
Context {Address : Type} `{Countable Address}.

(** Modelled from the spec: [types.SignedMessage] is declared outside the
    sources at hand; the queue reads its fields [From] and [Nonce] only, and
    everything else a message carries is kept as an opaque [Payload]. *)
Record SignedMessage : Type := mkSignedMessage {
  From : Address;
  Nonce : Z;
  Payload : string
}.

(** [QueuedMessage] is a message and the stamp it was enqueued with. *)
Record QueuedMessage : Type := mkQueuedMessage {
  Msg : SignedMessage;
  Stamp : Z
}.

(** [MessageQueue]: message queues keyed by sending address, in nonce
    order. *)
Record MessageQueue : Type := mkMessageQueue {
  queues : gmap Address (list QueuedMessage)
}.

(** The two kinds of error the queue reports (the source builds them with
    [errors.Errorf]; the constructors keep the values it formats). *)
Inductive QueueError : Type :=
  | NonceGap (got expected : Z)
  | Inconsistency (sender : Address) (head_nonce expected_nonce : Z).

Definition wf_msg (m : SignedMessage) : Prop := is_uint64 (Nonce m).

(** [mq.queues[sender]]: the nil slice when the key is absent. *)
Definition queue_of (mq : MessageQueue) (sender : Address) : list QueuedMessage :=
  default [] (queues mq !! sender).

(** [mq.queues[sender] = q] *)
Definition set_queue (mq : MessageQueue) (sender : Address)
    (q : list QueuedMessage) : MessageQueue :=
  {| queues := <[sender := q]> (queues mq) |}.

Definition NewMessageQueue : MessageQueue := {| queues := ∅ |}.

(** ** Mutators *)

Definition Enqueue (mq : MessageQueue) (msg : SignedMessage) (stamp : Z)
    : MessageQueue * option QueueError :=
  let q := queue_of mq (From msg) in
  match last q with
  | Some back =>
      let nextNonce := add64 (Nonce (Msg back)) 1 in
      if negb (Nonce msg =? nextNonce)
      then (mq, Some (NonceGap (Nonce msg) nextNonce))
      else (set_queue mq (From msg) (q ++ [mkQueuedMessage msg stamp]), None)
  | None => (set_queue mq (From msg) (q ++ [mkQueuedMessage msg stamp]), None)
  end.

Definition Requeue (mq : MessageQueue) (msg : SignedMessage) (stamp : Z)
    : MessageQueue * option QueueError :=
  let q := queue_of mq (From msg) in
  match q with
  | front :: _ =>
      let prevNonce := sub64 (Nonce (Msg front)) 1 in
      if negb (Nonce msg =? prevNonce)
      then (mq, Some (NonceGap (Nonce msg) prevNonce))
      else (set_queue mq (From msg) (mkQueuedMessage msg stamp :: q), None)
  | [] => (set_queue mq (From msg) (mkQueuedMessage msg stamp :: q), None)
  end.

(** The named results [(msg, found, err)] of [RemoveNext]. *)
Record RemoveResult : Type := mkRemoveResult {
  removed : option SignedMessage;
  found : bool;
  err : option QueueError
}.

Definition RemoveNext (mq : MessageQueue) (sender : Address) (expectedNonce : Z)
    : MessageQueue * RemoveResult :=
  let q := queue_of mq sender in
  match q with
  | head :: rest =>
      if expectedNonce =? Nonce (Msg head)
      then (set_queue mq sender rest, mkRemoveResult (Some (Msg head)) true None)
      else if Nonce (Msg head) <? expectedNonce
      then (mq, mkRemoveResult None false
                  (Some (Inconsistency sender (Nonce (Msg head)) expectedNonce)))
      else (mq, mkRemoveResult None false None)
  | [] => (mq, mkRemoveResult None false None)
  end.

Definition Clear (mq : MessageQueue) (sender : Address) : MessageQueue * bool :=
  let q := queue_of mq sender in
  ({| queues := delete sender (queues mq) |}, (0 <? length q)%nat).

(** The inner loop of [ExpireBefore]:
    [for _, m := range q { expired[sender] = append(expired[sender], m.Msg) }] *)
Definition expire_collect (sender : Address) (q : list QueuedMessage)
    (expired : gmap Address (list SignedMessage)) : gmap Address (list SignedMessage) :=
  foldl (λ e m, <[sender := default [] (e !! sender) ++ [Msg m]]> e) expired q.

(** The guard [len(q) > 0 && q[0].Stamp < stamp]. *)
Definition expires (stamp : Z) (q : list QueuedMessage) : bool :=
  match q with
  | front :: _ => Stamp front <? stamp
  | [] => false
  end.

(** One iteration of the outer loop of [ExpireBefore], on the pair of
    [mq.queues] and [expired]. *)
Definition expire_step (stamp : Z)
    (acc : gmap Address (list QueuedMessage) * gmap Address (list SignedMessage))
    (kv : Address * list QueuedMessage)
    : gmap Address (list QueuedMessage) * gmap Address (list SignedMessage) :=
  if expires stamp kv.2
  then (<[kv.1 := []]> acc.1, expire_collect kv.1 kv.2 acc.2)
  else acc.

Definition ExpireBefore (mq : MessageQueue) (stamp : Z)
    : MessageQueue * gmap Address (list SignedMessage) :=
  let r := foldl (expire_step stamp) (queues mq, ∅) (map_to_list (queues mq)) in
  ({| queues := r.1 |}, r.2).

(** ** Accessors *)

Definition LargestNonce (mq : MessageQueue) (sender : Address) : Z * bool :=
  match last (queue_of mq sender) with
  | Some back => (Nonce (Msg back), true)
  | None => (0, false)
  end.

Definition Queues (mq : MessageQueue) : list Address :=
  foldl (λ keys kv, keys ++ [kv.1]) [] (map_to_list (queues mq)).

Definition Size (mq : MessageQueue) : Z :=
  foldl (λ l kv, add_int64 l (Z.of_nat (length kv.2))) 0 (map_to_list (queues mq)).

(** The inner loop of [Oldest]. *)
Definition oldest_in (qm : list QueuedMessage) (oldest : Z) : Z :=
  foldl (λ o m, if Stamp m <? o then Stamp m else o) oldest qm.

Definition Oldest (mq : MessageQueue) : Z :=
  if (size (queues mq) =? 0)%nat then 0
  else foldl (λ o kv, oldest_in kv.2 o) max_uint64 (map_to_list (queues mq)).

(** [List] copies every [QueuedMessage]; a copy of a value is the value. *)
Definition List (mq : MessageQueue) (sender : Address) : list QueuedMessage :=
  queue_of mq sender.

(** ** The states the public operations can produce *)

Inductive reachable : MessageQueue -> Prop :=
  | reach_new : reachable NewMessageQueue
  | reach_enqueue mq msg stamp :
      reachable mq -> wf_msg msg -> is_uint64 stamp ->
      reachable (Enqueue mq msg stamp).1
  | reach_requeue mq msg stamp :
      reachable mq -> wf_msg msg -> is_uint64 stamp ->
      reachable (Requeue mq msg stamp).1
  | reach_remove_next mq sender expectedNonce :
      reachable mq -> is_uint64 expectedNonce ->
      reachable (RemoveNext mq sender expectedNonce).1
  | reach_clear mq sender :
      reachable mq -> reachable (Clear mq sender).1
  | reach_expire_before mq stamp :
      reachable mq -> is_uint64 stamp ->
      reachable (ExpireBefore mq stamp).1.

(** ** Contiguity of nonces *)

(** Every entry's nonce is the [next] of its predecessor's. *)
Definition run_by (next : Z -> Z) (q : list QueuedMessage) : Prop :=
  forall (i : nat) a b,
    q !! i = Some a -> q !! S i = Some b -> Nonce (Msg b) = next (Nonce (Msg a)).

(** Contiguity over the integers: a strictly ascending run. *)
Definition contiguous (q : list QueuedMessage) : Prop := run_by (fun n => n + 1) q.

(** Contiguity as the nonce checks compute it, on [uint64]. *)
Definition contiguous64 (q : list QueuedMessage) : Prop := run_by (fun n => add64 n 1) q.

Definition nonces_in_range (q : list QueuedMessage) : Prop :=
  Forall (fun qm => is_uint64 (Nonce (Msg qm))) q.

Definition stamps_in_range (q : list QueuedMessage) : Prop :=
  Forall (fun qm => is_uint64 (Stamp qm)) q.

(** What holds of every sequence of a reachable queue. *)
Definition queue_ok (q : list QueuedMessage) : Prop :=
  contiguous64 q /\ nonces_in_range q /\ stamps_in_range q.

Definition queues_ok (mq : MessageQueue) : Prop :=
  forall sender q, queues mq !! sender = Some q -> queue_ok q.

(** Nonces strictly increase along the sequence. *)
Definition ascending (q : list QueuedMessage) : Prop :=
  forall (i : nat) a b,
    q !! i = Some a -> q !! S i = Some b -> Nonce (Msg a) < Nonce (Msg b).

(** The sum of the lengths of all sequences. *)
Definition total_length (mq : MessageQueue) : Z :=
  foldr (fun kv n => Z.of_nat (length kv.2) + n) 0 (map_to_list (queues mq)).

(** Every queued message is filed under the address it was sent from. *)
Definition filed_ok (mq : MessageQueue) : Prop :=
  forall sender q, queues mq !! sender = Some q ->
    Forall (fun qm => From (Msg qm) = sender) q.

(** A caller that removes one sender's messages in order: [RemoveNext] once
    per expected nonce, the results collected in the order of the calls. *)
Fixpoint remove_in_order (mq : MessageQueue) (sender : Address) (expected : list Z)
    : MessageQueue * list RemoveResult :=
  match expected with
  | [] => (mq, [])
  | n :: ns =>
      let r := RemoveNext mq sender n in
      let rs := remove_in_order r.1 sender ns in
      (rs.1, r.2 :: rs.2)
  end.

End MessageQueue.

Arguments SignedMessage : clear implicits.
Arguments QueuedMessage : clear implicits.
Arguments QueueError : clear implicits.
Arguments RemoveResult : clear implicits.
Arguments MessageQueue Address {_ _}.

(** * Concrete queues *)

(** Addresses are strings in the scenarios below. *)
Definition msg_of (sender : string) (nonce : Z) : SignedMessage string :=
  mkSignedMessage sender nonce "".

Definition entry (sender : string) (nonce stamp : Z) : QueuedMessage string :=
  mkQueuedMessage (msg_of sender nonce) stamp.

Definition empty_queue : MessageQueue string := NewMessageQueue.

(** Sender A with nonce 5. *)
Definition queue_5 : MessageQueue string :=
  (Enqueue empty_queue (msg_of "A" 5) 100).1.

(** Sender A with nonces 5 and 6. *)
Definition queue_5_6 : MessageQueue string :=
  (Enqueue queue_5 (msg_of "A" 6) 101).1.

(** Sender A with nonces 4, 5 and 6, the first one requeued. *)
Definition queue_4_5_6 : MessageQueue string :=
  (Requeue queue_5_6 (msg_of "A" 4) 200).1.

(** Sender A with nonce [2^64 - 1] followed by nonce 0. *)
Definition wrapped_queue : MessageQueue string :=
  (Enqueue (Enqueue empty_queue (msg_of "A" max_uint64) 1).1 (msg_of "A" 0) 2).1.

(** Sender A with nonce 0 only. *)
Definition queue_0 : MessageQueue string :=
  (Enqueue empty_queue (msg_of "A" 0) 1).1.

(** Sender A with nonce [2^64 - 1] only. *)
Definition queue_max : MessageQueue string :=
  (Enqueue empty_queue (msg_of "A" max_uint64) 1).1.

(** Sender A with stamps 50 and 200, sender B with stamp 150. *)
Definition two_senders : MessageQueue string :=
  (Enqueue (Enqueue (Enqueue empty_queue (msg_of "A" 1) 50).1
              (msg_of "A" 2) 200).1 (msg_of "B" 1) 150).1.

(** Sender A enqueued once, then expired. *)
Definition drained_queue : MessageQueue string :=
  (ExpireBefore (Enqueue empty_queue (msg_of "A" 1) 50).1 100).1.

(** * Properties *)

(** ** Machine arithmetic *)

Lemma add64_in_range a : is_uint64 a -> a < max_uint64 -> add64 a 1 = a + 1.
Proof.
  unfold is_uint64, max_uint64, add64. intros Ha Hlt.
  apply Z.mod_small. lia.
Qed.

Lemma add64_wraps : add64 max_uint64 1 = 0.
Proof. reflexivity. Qed.

Lemma sub64_wraps : sub64 0 1 = max_uint64.
Proof. reflexivity. Qed.

Lemma add64_sub64 a : is_uint64 a -> add64 (sub64 a 1) 1 = a.
Proof.
  unfold is_uint64, max_uint64, add64, sub64. intros Ha.
  rewrite Zplus_mod_idemp_l. replace (a - 1 + 1) with a by lia.
  apply Z.mod_small. lia.
Qed.

Lemma add64_sub64_inv a : is_uint64 a -> sub64 (add64 a 1) 1 = a.
Proof.
  unfold is_uint64, max_uint64, add64, sub64. intros Ha.
  rewrite Zminus_mod_idemp_l. replace (a + 1 - 1) with a by lia.
  apply Z.mod_small. lia.
Qed.

Section Properties.

Context {Address : Type} `{Countable Address}.

Implicit Types (mq : MessageQueue Address) (sender : Address).
Implicit Types (q rest : list (QueuedMessage Address)).
Implicit Types (x y a b head front back only : QueuedMessage Address).

(** ** Reading and writing one sender's sequence *)

Lemma queue_of_set_eq mq sender q : queue_of (set_queue mq sender q) sender = q.
Proof. unfold queue_of, set_queue. simpl. by rewrite lookup_insert_eq. Qed.

Lemma queue_of_set_ne mq sender sender' q :
  sender <> sender' -> queue_of (set_queue mq sender q) sender' = queue_of mq sender'.
Proof. intros Hne. unfold queue_of, set_queue. simpl. by rewrite lookup_insert_ne. Qed.

Lemma queue_of_lookup mq sender q :
  queues mq !! sender = Some q -> queue_of mq sender = q.
Proof. intros Hq. unfold queue_of. by rewrite Hq. Qed.

Lemma queue_of_new sender : queue_of NewMessageQueue sender = [].
Proof. unfold queue_of. simpl. by rewrite lookup_empty. Qed.

Lemma set_queue_id mq sender q :
  queues mq !! sender = Some q -> set_queue mq sender q = mq.
Proof.
  intros Hq. destruct mq as [m]. unfold set_queue. simpl in *.
  f_equal. by apply insert_id.
Qed.

(** ** Runs under cons, snoc and tail *)

Lemma run_by_nil next : run_by (Address := Address) next [].
Proof. intros i a b Ha. rewrite lookup_nil in Ha. discriminate. Qed.

Lemma run_by_singleton next x : run_by next [x].
Proof. intros [|i] a b Ha Hb; simpl in *; discriminate. Qed.

Lemma run_by_tail next x q : run_by next (x :: q) -> run_by next q.
Proof. intros Hrun i a b Ha Hb. apply (Hrun (S i) a b); assumption. Qed.

Lemma run_by_cons next x y q :
  Nonce (Msg y) = next (Nonce (Msg x)) ->
  run_by next (y :: q) -> run_by next (x :: y :: q).
Proof.
  intros Hxy Hrun [|i] a b Ha Hb.
  - simpl in Ha, Hb. congruence.
  - apply (Hrun i a b); assumption.
Qed.

Lemma run_by_snoc next q x :
  run_by next q ->
  (forall back, last q = Some back -> Nonce (Msg x) = next (Nonce (Msg back))) ->
  run_by next (q ++ [x]).
Proof.
  induction q as [|y q IH]; intros Hrun Hlast.
  - apply run_by_singleton.
  - destruct q as [|z q].
    + simpl. apply run_by_cons; [by apply Hlast | apply run_by_singleton].
    + simpl. apply run_by_cons.
      * apply (Hrun 0%nat y z); reflexivity.
      * apply IH; [by eapply run_by_tail | exact Hlast].
Qed.

(** ** The loops of [ExpireBefore] *)

Lemma expire_collect_cons sender m q (e : gmap Address (list (SignedMessage Address))) :
  expire_collect sender (m :: q) e
  = <[sender := default [] (e !! sender) ++ (Msg <$> (m :: q))]> e.
Proof.
  revert m e. induction q as [|m' q IH]; intros m e.
  - reflexivity.
  - change (expire_collect sender (m :: m' :: q) e)
      with (expire_collect sender (m' :: q)
              (<[sender := default [] (e !! sender) ++ [Msg m]]> e)).
    rewrite IH, lookup_insert_eq, insert_insert_eq. simpl.
    by rewrite <- app_assoc.
Qed.

Lemma expires_cons stamp q :
  expires stamp q = true -> exists front rest, q = front :: rest /\ Stamp front < stamp.
Proof.
  destruct q as [|front rest]; simpl; [discriminate|].
  intros Hlt. exists front, rest. split; [reflexivity | lia].
Qed.

Lemma expire_step_yes stamp qs e k q :
  expires stamp q = true ->
  expire_step stamp (qs, e) (k, q)
  = (<[k := []]> qs, <[k := default [] (e !! k) ++ (Msg <$> q)]> e).
Proof.
  intros Hexp. unfold expire_step. simpl. rewrite Hexp.
  apply expires_cons in Hexp as (front & rest & -> & _).
  by rewrite expire_collect_cons.
Qed.

Lemma expire_step_no stamp qs e k q :
  expires stamp q = false -> expire_step stamp (qs, e) (k, q) = (qs, e).
Proof. intros Hexp. unfold expire_step. simpl. by rewrite Hexp. Qed.

(** The outer loop, run over any duplicate-free list of bindings: a sender
    whose binding expires gets the empty sequence and its messages are
    appended to what [expired] held for it; every other sender is left as it
    was in both maps. *)
Lemma expire_loop stamp (l : list (Address * list (QueuedMessage Address))) :
  NoDup l.*1 ->
  forall qs e sender,
    (forall q, (sender, q) ∈ l -> expires stamp q = true ->
        (foldl (expire_step stamp) (qs, e) l).1 !! sender = Some [] /\
        (foldl (expire_step stamp) (qs, e) l).2 !! sender
          = Some (default [] (e !! sender) ++ (Msg <$> q)))
    /\ ((forall q, (sender, q) ∈ l -> expires stamp q = false) ->
        (foldl (expire_step stamp) (qs, e) l).1 !! sender = qs !! sender /\
        (foldl (expire_step stamp) (qs, e) l).2 !! sender = e !! sender).
Proof.
  induction l as [|[k q0] l IH]; intros Hnd qs e sender.
  - split; [intros q Hin; by apply elem_of_nil in Hin | done].
  - apply NoDup_cons in Hnd as [Hk Hnd]. simpl in Hk.
    assert (Hrest : forall q, (k, q) ∈ l -> False).
    { intros q Hin. apply Hk. apply list_elem_of_fmap. by exists (k, q). }
    cbn [foldl].
    destruct (expires stamp q0) eqn:Hexp.
    + rewrite (expire_step_yes _ _ _ _ _ Hexp).
      destruct (IH Hnd (<[k:=[]]> qs)
        (<[k:=default [] (e !! k) ++ (Msg <$> q0)]> e) sender) as [IHyes IHno].
      destruct (decide (k = sender)) as [->|Hne].
      * split.
        -- intros q Hin Hq. apply elem_of_cons in Hin as [Heq|Hin];
             [|by destruct (Hrest q)].
           injection Heq as ->.
           destruct IHno as [H1 H2]; [intros q' Hin'; by destruct (Hrest q')|].
           by rewrite H1, H2, !lookup_insert_eq.
        -- intros Hno. specialize (Hno q0 ltac:(left)). congruence.
      * split.
        -- intros q Hin Hq. apply elem_of_cons in Hin as [Heq|Hin]; [congruence|].
           destruct (IHyes q Hin Hq) as [H1 H2].
           by rewrite H1, H2, lookup_insert_ne.
        -- intros Hno. destruct IHno as [H1 H2].
           { intros q Hin. apply Hno. by right. }
           by rewrite H1, H2, !lookup_insert_ne.
    + rewrite (expire_step_no _ _ _ _ _ Hexp).
      destruct (IH Hnd qs e sender) as [IHyes IHno].
      split.
      * intros q Hin Hq. apply elem_of_cons in Hin as [Heq|Hin]; [congruence|].
        by apply IHyes.
      * intros Hno. apply IHno. intros q Hin. apply Hno. by right.
Qed.

Lemma ExpireBefore_expired mq stamp sender q :
  queues mq !! sender = Some q -> expires stamp q = true ->
  queues (ExpireBefore mq stamp).1 !! sender = Some [] /\
  (ExpireBefore mq stamp).2 !! sender = Some (Msg <$> q).
Proof.
  intros Hq Hexp.
  destruct (expire_loop stamp (map_to_list (queues mq))
              (NoDup_fst_map_to_list _) (queues mq) ∅ sender) as [Hyes _].
  apply (Hyes q); [by apply elem_of_map_to_list | exact Hexp].
Qed.

Lemma ExpireBefore_kept mq stamp sender :
  expires stamp (queue_of mq sender) = false ->
  queues (ExpireBefore mq stamp).1 !! sender = queues mq !! sender /\
  (ExpireBefore mq stamp).2 !! sender = None.
Proof.
  intros Hexp.
  destruct (expire_loop stamp (map_to_list (queues mq))
              (NoDup_fst_map_to_list _) (queues mq) ∅ sender) as [_ Hno].
  rewrite <- (lookup_empty (M := gmap Address) sender). apply Hno.
  intros q Hin. apply elem_of_map_to_list in Hin.
  by rewrite (queue_of_lookup _ _ _ Hin) in Hexp.
Qed.

Lemma ExpireBefore_lookup mq stamp sender q :
  queues (ExpireBefore mq stamp).1 !! sender = Some q ->
  q = [] \/ queues mq !! sender = Some q.
Proof.
  intros Hq. destruct (expires stamp (queue_of mq sender)) eqn:Hexp.
  - destruct (queues mq !! sender) as [q0|] eqn:Hq0.
    + rewrite (queue_of_lookup _ _ _ Hq0) in Hexp.
      destruct (ExpireBefore_expired mq stamp sender q0 Hq0 Hexp) as [H1 _].
      left. congruence.
    + unfold queue_of in Hexp. rewrite Hq0 in Hexp. discriminate.
  - destruct (ExpireBefore_kept mq stamp sender Hexp) as [H1 _].
    right. congruence.
Qed.

(** ** Every reachable queue is well formed *)

Lemma queue_ok_nil : queue_ok (Address := Address) [].
Proof. repeat split; [apply run_by_nil | apply Forall_nil_2 ..]. Qed.

Lemma queue_ok_queue_of mq sender : queues_ok mq -> queue_ok (queue_of mq sender).
Proof.
  intros Hok. unfold queue_of.
  destruct (queues mq !! sender) as [q|] eqn:Hq; simpl.
  - by apply (Hok sender).
  - apply queue_ok_nil.
Qed.

Lemma queues_ok_set mq sender q :
  queues_ok mq -> queue_ok q -> queues_ok (set_queue mq sender q).
Proof.
  intros Hok Hq s q'. unfold set_queue. simpl.
  destruct (decide (sender = s)) as [->|Hne].
  - rewrite lookup_insert_eq. by intros [= <-].
  - rewrite lookup_insert_ne by done. apply Hok.
Qed.

Lemma queue_ok_tail x q : queue_ok (x :: q) -> queue_ok q.
Proof.
  intros (Hrun & Hn & Hs). repeat split.
  - by eapply run_by_tail.
  - by apply Forall_cons in Hn as [_ Hn].
  - by apply Forall_cons in Hs as [_ Hs].
Qed.

Lemma Enqueue_ok mq msg stamp :
  queues_ok mq -> wf_msg msg -> is_uint64 stamp -> queues_ok (Enqueue mq msg stamp).1.
Proof.
  intros Hok Hmsg Hstamp. unfold Enqueue.
  pose proof (queue_ok_queue_of mq (From msg) Hok) as (Hrun & Hn & Hs).
  assert (Hnew : (forall back, last (queue_of mq (From msg)) = Some back ->
                    Nonce msg = add64 (Nonce (Msg back)) 1) ->
                 queue_ok (queue_of mq (From msg) ++ [mkQueuedMessage msg stamp])).
  { intros Hlast. repeat split.
    - apply run_by_snoc; [exact Hrun | exact Hlast].
    - apply Forall_app. split; [exact Hn | by apply Forall_singleton].
    - apply Forall_app. split; [exact Hs | by apply Forall_singleton]. }
  destruct (last (queue_of mq (From msg))) as [back|] eqn:Hlast; simpl.
  - destruct (Nonce msg =? add64 (Nonce (Msg back)) 1) eqn:Heq; simpl.
    + apply queues_ok_set; [exact Hok|]. apply Hnew.
      intros back' [= <-]. by apply Z.eqb_eq.
    + exact Hok.
  - apply queues_ok_set; [exact Hok|]. apply Hnew. intros back' [=].
Qed.

Lemma Requeue_ok mq msg stamp :
  queues_ok mq -> wf_msg msg -> is_uint64 stamp -> queues_ok (Requeue mq msg stamp).1.
Proof.
  intros Hok Hmsg Hstamp. unfold Requeue.
  pose proof (queue_ok_queue_of mq (From msg) Hok) as Hq.
  destruct (queue_of mq (From msg)) as [|front rest] eqn:Hqueue; simpl.
  - apply queues_ok_set; [exact Hok|].
    repeat split; [apply run_by_singleton | by apply Forall_singleton ..].
  - destruct (Nonce msg =? sub64 (Nonce (Msg front)) 1) eqn:Heq; simpl; [|exact Hok].
    apply Z.eqb_eq in Heq. destruct Hq as (Hrun & Hn & Hs).
    apply queues_ok_set; [exact Hok|]. repeat split.
    + apply run_by_cons; [|exact Hrun]. simpl. rewrite Heq.
      symmetry. apply add64_sub64. by apply Forall_cons in Hn as [Hn _].
    + by apply Forall_cons.
    + by apply Forall_cons.
Qed.

Lemma RemoveNext_ok mq sender expectedNonce :
  queues_ok mq -> queues_ok (RemoveNext mq sender expectedNonce).1.
Proof.
  intros Hok. unfold RemoveNext.
  pose proof (queue_ok_queue_of mq sender Hok) as Hq.
  destruct (queue_of mq sender) as [|head rest]; simpl; [exact Hok|].
  destruct (expectedNonce =? Nonce (Msg head)); simpl.
  - apply queues_ok_set; [exact Hok | by eapply queue_ok_tail].
  - by destruct (Nonce (Msg head) <? expectedNonce).
Qed.

Lemma Clear_ok mq sender : queues_ok mq -> queues_ok (Clear mq sender).1.
Proof.
  intros Hok s q. unfold Clear. simpl. intros Hq.
  apply lookup_delete_Some in Hq as [_ Hq]. by apply (Hok s).
Qed.

Lemma ExpireBefore_ok mq stamp : queues_ok mq -> queues_ok (ExpireBefore mq stamp).1.
Proof.
  intros Hok s q Hq. apply ExpireBefore_lookup in Hq as [->|Hq].
  - apply queue_ok_nil.
  - by apply (Hok s).
Qed.

Lemma reachable_ok mq : reachable mq -> queues_ok mq.
Proof.
  induction 1.
  - intros s q. unfold NewMessageQueue. simpl. by rewrite lookup_empty.
  - by apply Enqueue_ok.
  - by apply Requeue_ok.
  - by apply RemoveNext_ok.
  - by apply Clear_ok.
  - by apply ExpireBefore_ok.
Qed.

Lemma contiguous_ascending q : contiguous q -> ascending q.
Proof. intros Hrun i a b Ha Hb. rewrite (Hrun i a b Ha Hb). lia. Qed.

Lemma set_queue_set_queue mq sender q q' :
  set_queue (set_queue mq sender q) sender q' = set_queue mq sender q'.
Proof. unfold set_queue. simpl. by rewrite insert_insert_eq. Qed.

(** ** Nonce contiguity *)

(** C1, as the code has it: in every queue reachable through the public
    operations, each entry's nonce is the successor of its predecessor's in
    64-bit unsigned arithmetic, that is modulo [2^64]; it is the successor
    over the integers, hence strictly greater, whenever the predecessor's
    nonce is below [2^64 - 1]. *)
Theorem contiguity_mod_2_64 mq sender (i : nat) a b :
  reachable mq ->
  List mq sender !! i = Some a ->
  List mq sender !! S i = Some b ->
  Nonce (Msg b) = add64 (Nonce (Msg a)) 1 /\
  (Nonce (Msg a) < max_uint64 -> Nonce (Msg b) = Nonce (Msg a) + 1).
Proof.
  intros Hreach Ha Hb.
  destruct (queue_ok_queue_of mq sender (reachable_ok mq Hreach)) as (Hrun & Hn & _).
  unfold List in *.
  pose proof (Hrun i a b Ha Hb) as Hnext. simpl in Hnext.
  split; [exact Hnext|]. intros Hlt. rewrite Hnext.
  apply add64_in_range; [|exact Hlt].
  eapply (Forall_lookup_1 _ _ _ _ Hn Ha).
Qed.

(** ** The conditional pop *)

(** C2: [RemoveNext] compares the expected nonce with the nonce at the front
    of the sender's sequence. Equal: the front is popped and returned, found,
    without error. Smaller: nothing is returned, no error, state unchanged.
    Greater: nothing is returned, an [Inconsistency] error, state unchanged.
    Sequence empty or sender absent: nothing is returned, no error. *)
Theorem RemoveNext_trichotomy mq sender n :
  (forall head rest, List mq sender = head :: rest -> n = Nonce (Msg head) ->
     RemoveNext mq sender n
     = (set_queue mq sender rest, mkRemoveResult (Some (Msg head)) true None)) /\
  (forall head rest, List mq sender = head :: rest -> n < Nonce (Msg head) ->
     RemoveNext mq sender n = (mq, mkRemoveResult None false None)) /\
  (forall head rest, List mq sender = head :: rest -> n > Nonce (Msg head) ->
     RemoveNext mq sender n
     = (mq, mkRemoveResult None false
              (Some (Inconsistency sender (Nonce (Msg head)) n)))) /\
  (List mq sender = [] ->
     RemoveNext mq sender n = (mq, mkRemoveResult None false None)) /\
  (queues mq !! sender = None ->
     RemoveNext mq sender n = (mq, mkRemoveResult None false None)).
Proof.
  unfold List, RemoveNext. repeat split.
  - intros head rest -> ->. by rewrite Z.eqb_refl.
  - intros head rest -> Hlt.
    destruct (n =? Nonce (Msg head)) eqn:Heq; [apply Z.eqb_eq in Heq; lia|].
    destruct (Nonce (Msg head) <? n) eqn:Hgt; [apply Z.ltb_lt in Hgt; lia|].
    reflexivity.
  - intros head rest -> Hgt.
    destruct (n =? Nonce (Msg head)) eqn:Heq; [apply Z.eqb_eq in Heq; lia|].
    destruct (Nonce (Msg head) <? n) eqn:Hlt; [|apply Z.ltb_ge in Hlt; lia].
    reflexivity.
  - by intros ->.
  - intros Hnone. unfold queue_of. by rewrite Hnone.
Qed.

(** ** The nonce checks *)

(** C3: [Enqueue] fails exactly when the sender's sequence is non-empty and
    the message's nonce differs from the back nonce plus one; [Requeue] fails
    exactly when the sequence is non-empty and the nonce differs from the
    front nonce minus one (both computed on [uint64]); the error is a
    [NonceGap] carrying the nonce got and the one expected; a failing call
    leaves the queue as it was; on an empty or absent sequence any nonce is
    stored. *)
Theorem nonce_gap_iff mq m stamp :
  (forall e, (Enqueue mq m stamp).2 = Some e <->
     exists back, last (List mq (From m)) = Some back /\
       Nonce m <> add64 (Nonce (Msg back)) 1 /\
       e = NonceGap (Nonce m) (add64 (Nonce (Msg back)) 1)) /\
  (forall e, (Requeue mq m stamp).2 = Some e <->
     exists front, head (List mq (From m)) = Some front /\
       Nonce m <> sub64 (Nonce (Msg front)) 1 /\
       e = NonceGap (Nonce m) (sub64 (Nonce (Msg front)) 1)) /\
  ((Enqueue mq m stamp).2 <> None -> (Enqueue mq m stamp).1 = mq) /\
  ((Requeue mq m stamp).2 <> None -> (Requeue mq m stamp).1 = mq) /\
  (List mq (From m) = [] ->
     Enqueue mq m stamp = (set_queue mq (From m) [mkQueuedMessage m stamp], None) /\
     Requeue mq m stamp = (set_queue mq (From m) [mkQueuedMessage m stamp], None)).
Proof.
  unfold List, Enqueue, Requeue.
  split; [|split; [|split; [|split; [|intros H0; split]]]]; [split| split| | | |].
  - destruct (last (queue_of mq (From m))) as [back|]; simpl.
    + destruct (Nonce m =? add64 (Nonce (Msg back)) 1) eqn:Heq; simpl.
      * discriminate.
      * intros [= <-]. exists back. apply Z.eqb_neq in Heq. done.
    + discriminate.
  - intros (back & Hlast & Hne & ->). rewrite Hlast. simpl.
    apply Z.eqb_neq in Hne. by rewrite Hne.
  - destruct (queue_of mq (From m)) as [|front rest]; simpl; [discriminate|].
    destruct (Nonce m =? sub64 (Nonce (Msg front)) 1) eqn:Heq; simpl.
    + discriminate.
    + intros [= <-]. exists front. apply Z.eqb_neq in Heq. done.
  - intros (front & Hhead & Hne & ->).
    destruct (queue_of mq (From m)) as [|front' rest]; simpl in *; [discriminate|].
    injection Hhead as ->. apply Z.eqb_neq in Hne. by rewrite Hne.
  - destruct (last (queue_of mq (From m))) as [back|]; simpl; [|done].
    by destruct (Nonce m =? add64 (Nonce (Msg back)) 1).
  - destruct (queue_of mq (From m)) as [|front rest]; simpl; [done|].
    by destruct (Nonce m =? sub64 (Nonce (Msg front)) 1).
  - by rewrite H0.
  - by rewrite H0.
Qed.

(** ** Bulk expiration *)

(** C4: [ExpireBefore] moves the whole sequence of every sender whose
    sequence is non-empty with a front stamp below the threshold into the
    returned map, under that sender, and leaves that sender with the empty
    sequence; a sender whose front stamp is not below the threshold (whatever
    the stamps behind the front), or who has no message, keeps its binding
    and does not occur in the returned map. *)
Theorem ExpireBefore_by_front_stamp mq k sender :
  (forall front rest,
     queues mq !! sender = Some (front :: rest) -> Stamp front < k ->
     (ExpireBefore mq k).2 !! sender = Some (Msg <$> front :: rest) /\
     queues (ExpireBefore mq k).1 !! sender = Some [] /\
     List (ExpireBefore mq k).1 sender = []) /\
  ((forall front rest, List mq sender = front :: rest -> k <= Stamp front) ->
     queues (ExpireBefore mq k).1 !! sender = queues mq !! sender /\
     List (ExpireBefore mq k).1 sender = List mq sender /\
     (ExpireBefore mq k).2 !! sender = None).
Proof.
  split.
  - intros front rest Hq Hlt.
    destruct (ExpireBefore_expired mq k sender (front :: rest) Hq) as [H1 H2].
    { simpl. by apply Z.ltb_lt. }
    split; [exact H2|]. split; [exact H1|].
    unfold List, queue_of. by rewrite H1.
  - intros Hfront.
    destruct (ExpireBefore_kept mq k sender) as [H1 H2].
    { unfold List in Hfront.
      destruct (queue_of mq sender) as [|front rest]; simpl; [reflexivity|].
      apply Z.ltb_ge. by apply (Hfront front rest). }
    split; [exact H1|]. split; [|exact H2].
    unfold List, queue_of. by rewrite H1.
Qed.

(** ** Enqueue followed by removal *)

(** C7, as the code has it: when the sender of [m] has no queued message,
    [Enqueue] of [m] succeeds and [RemoveNext] on [m]'s sender and nonce
    returns [m], found, without error; afterwards the sender is bound to the
    empty sequence and every sender's sequence reads as before the enqueue;
    the queue is equal to the one before the enqueue when the sender was
    already bound (to the empty sequence). *)
Theorem enqueue_remove_on_empty mq m stamp :
  List mq (From m) = [] ->
  (Enqueue mq m stamp).2 = None /\
  RemoveNext (Enqueue mq m stamp).1 (From m) (Nonce m)
  = (set_queue mq (From m) [], mkRemoveResult (Some m) true None) /\
  (forall sender, List (set_queue mq (From m) []) sender = List mq sender) /\
  (queues mq !! From m = Some [] -> set_queue mq (From m) [] = mq).
Proof.
  unfold List. intros Hempty.
  unfold Enqueue. rewrite Hempty. simpl.
  split; [reflexivity|]. split; [|split].
  - unfold RemoveNext. rewrite queue_of_set_eq. simpl.
    by rewrite Z.eqb_refl, set_queue_set_queue.
  - intros sender. destruct (decide (From m = sender)) as [<-|Hne].
    + by rewrite queue_of_set_eq.
    + by apply queue_of_set_ne.
  - apply set_queue_id.
Qed.

(** ** Removing twice *)

(** C8, as the code has it: in a reachable queue, when [RemoveNext] finds a
    message, that message bears the expected nonce and there is no error; a
    second [RemoveNext] with the same arguments finds nothing, reports no
    error and leaves the queue unchanged, provided the nonce is not
    [2^64 - 1] or the sequence has become empty; at nonce [2^64 - 1] with an
    entry left (whose nonce wrapped to 0), the second call reports an
    [Inconsistency]. *)
Theorem RemoveNext_twice mq sender n mq' r :
  reachable mq ->
  RemoveNext mq sender n = (mq', r) ->
  found r = true ->
  (exists m, removed r = Some m /\ Nonce m = n /\ err r = None) /\
  (n <> max_uint64 \/ List mq' sender = [] ->
     RemoveNext mq' sender n = (mq', mkRemoveResult None false None)) /\
  (n = max_uint64 -> List mq' sender <> [] ->
     RemoveNext mq' sender n
     = (mq', mkRemoveResult None false (Some (Inconsistency sender 0 n)))).
Proof.
  intros Hreach Hrem Hfound.
  pose proof (queue_ok_queue_of mq sender (reachable_ok mq Hreach)) as (Hrun & Hn & _).
  unfold RemoveNext in Hrem.
  destruct (queue_of mq sender) as [|head rest] eqn:Hq.
  { injection Hrem as <- <-. discriminate Hfound. }
  destruct (n =? Nonce (Msg head)) eqn:Heq.
  2:{ destruct (Nonce (Msg head) <? n); injection Hrem as <- <-; discriminate Hfound. }
  apply Z.eqb_eq in Heq. injection Hrem as <- <-. simpl.
  split; [by exists (Msg head)|].
  unfold List, RemoveNext. rewrite queue_of_set_eq.
  apply Forall_cons in Hn as [Hhead _]. simpl in Hhead.
  destruct rest as [|next rest].
  { split; [done|]. intros _ Hne. by destruct Hne. }
  pose proof (Hrun 0%nat head next eq_refl eq_refl) as Hnext. simpl in Hnext.
  rewrite <- Heq in Hnext, Hhead.
  split.
  - intros [Hne|Hnil]; [|discriminate Hnil].
    rewrite Hnext, add64_in_range by (unfold is_uint64 in Hhead; lia || done).
    destruct (n =? n + 1) eqn:E1; [apply Z.eqb_eq in E1; lia|].
    destruct (n + 1 <? n) eqn:E2; [apply Z.ltb_lt in E2; lia|].
    reflexivity.
  - intros -> _. rewrite Hnext, add64_wraps. reflexivity.
Qed.

(** ** Clearing a sender, and removing its last message *)

Lemma LargestNonce_empty mq sender :
  List mq sender = [] -> LargestNonce mq sender = (0, false).
Proof. unfold List, LargestNonce. by intros ->. Qed.

(** C9, as the code has it: [Clear] removes the sender's key and returns
    true exactly when the sender had at least one message; when [RemoveNext]
    removes the only entry of a sender's sequence, the key stays in the map,
    bound to the empty sequence; after either call [LargestNonce] returns
    [(0, false)] and [List] is empty for that sender. *)
Theorem Clear_and_last_removal mq sender :
  (queues (Clear mq sender).1 !! sender = None /\
   ((Clear mq sender).2 = true <-> List mq sender <> []) /\
   LargestNonce (Clear mq sender).1 sender = (0, false) /\
   List (Clear mq sender).1 sender = []) /\
  (forall only,
     List mq sender = [only] ->
     (RemoveNext mq sender (Nonce (Msg only))).2
       = mkRemoveResult (Some (Msg only)) true None /\
     queues (RemoveNext mq sender (Nonce (Msg only))).1 !! sender = Some [] /\
     LargestNonce (RemoveNext mq sender (Nonce (Msg only))).1 sender = (0, false) /\
     List (RemoveNext mq sender (Nonce (Msg only))).1 sender = []).
Proof.
  split.
  - assert (Hgone : queues (Clear mq sender).1 !! sender = None).
    { unfold Clear. simpl. apply lookup_delete_eq. }
    assert (Hlist : List (Clear mq sender).1 sender = []).
    { unfold List, queue_of. by rewrite Hgone. }
    split; [exact Hgone|]. split; [|split; [by apply LargestNonce_empty | exact Hlist]].
    unfold Clear, List. simpl.
    destruct (queue_of mq sender); simpl; split; done.
  - intros only Honly. unfold List in Honly.
    assert (Hrem : RemoveNext mq sender (Nonce (Msg only))
                   = (set_queue mq sender [], mkRemoveResult (Some (Msg only)) true None)).
    { unfold RemoveNext. by rewrite Honly, Z.eqb_refl. }
    rewrite Hrem. simpl.
    assert (Hlist : List (set_queue mq sender []) sender = []).
    { unfold List. apply queue_of_set_eq. }
    split; [reflexivity|]. split; [apply lookup_insert_eq|].
    split; [by apply LargestNonce_empty | exact Hlist].
Qed.

(** ** Wrap-around of the nonce checks *)

(** C10: the nonce checks compute on [uint64]. With nonce 0 at the front,
    [Requeue] accepts a message of nonce [2^64 - 1]; with nonce [2^64 - 1]
    at the back, [Enqueue] accepts a message of nonce 0; the sequence
    stored in either case is not strictly ascending. *)
Theorem nonce_checks_wrap mq m stamp :
  (forall front rest,
     List mq (From m) = front :: rest ->
     Nonce (Msg front) = 0 -> Nonce m = max_uint64 ->
     Requeue mq m stamp
     = (set_queue mq (From m) (mkQueuedMessage m stamp :: front :: rest), None) /\
     ~ ascending (mkQueuedMessage m stamp :: front :: rest)) /\
  (forall back,
     last (List mq (From m)) = Some back ->
     Nonce (Msg back) = max_uint64 -> Nonce m = 0 ->
     Enqueue mq m stamp
     = (set_queue mq (From m) (List mq (From m) ++ [mkQueuedMessage m stamp]), None) /\
     ~ ascending (List mq (From m) ++ [mkQueuedMessage m stamp])).
Proof.
  unfold List. split.
  - intros front rest Hq Hfront Hm. split.
    + unfold Requeue. rewrite Hq, Hfront, sub64_wraps, Hm. reflexivity.
    + intros Hasc.
      specialize (Hasc 0%nat (mkQueuedMessage m stamp) front eq_refl eq_refl).
      simpl in Hasc. rewrite Hfront, Hm in Hasc. unfold max_uint64 in Hasc. lia.
  - intros back Hlast Hback Hm. split.
    + unfold Enqueue. rewrite Hlast, Hback, add64_wraps, Hm. reflexivity.
    + intros Hasc. apply last_Some in Hlast as [q' Hq']. rewrite Hq' in Hasc.
      specialize (Hasc (length q') back (mkQueuedMessage m stamp)).
      rewrite <- app_assoc in Hasc. simpl in Hasc.
      rewrite list_lookup_middle in Hasc by reflexivity.
      rewrite (lookup_app_r q' _ (S (length q'))) in Hasc by lia.
      replace (S (length q') - length q')%nat with 1%nat in Hasc by lia.
      specialize (Hasc eq_refl eq_refl).
      simpl in Hasc. rewrite Hback, Hm in Hasc. unfold max_uint64 in Hasc. lia.
Qed.

(** ** The accessors *)

Lemma Queues_keys mq : Queues mq = (map_to_list (queues mq)).*1.
Proof.
  unfold Queues.
  assert (Hgen : forall (l : list (Address * list (QueuedMessage Address))) keys,
            foldl (fun keys kv => keys ++ [kv.1]) keys l = keys ++ l.*1).
  { induction l as [|kv l IH]; intros keys; simpl.
    - by rewrite app_nil_r.
    - by rewrite IH, <- app_assoc. }
  apply Hgen.
Qed.

(** [Queues] lists every key of the map, whatever it is bound to. *)
Lemma Queues_elem mq sender :
  sender ∈ Queues mq <-> is_Some (queues mq !! sender).
Proof.
  rewrite Queues_keys, list_elem_of_fmap. split.
  - intros ([k q] & -> & Hin). apply elem_of_map_to_list in Hin. by exists q.
  - intros [q Hq]. exists (sender, q). split; [done | by apply elem_of_map_to_list].
Qed.

Lemma add_int64_small l n :
  - 2 ^ 63 <= l + n < 2 ^ 63 -> add_int64 l n = l + n.
Proof. intros Hr. unfold add_int64. rewrite Z.mod_small; lia. Qed.

(** [Size] is the sum of the lengths as long as that sum fits [int64]. *)
Lemma Size_total mq : total_length mq < 2 ^ 63 -> Size mq = total_length mq.
Proof.
  unfold Size, total_length.
  assert (Hgen : forall (l : list (Address * list (QueuedMessage Address))) acc,
            0 <= acc ->
            acc + foldr (fun kv n => Z.of_nat (length kv.2) + n) 0 l < 2 ^ 63 ->
            foldl (fun l kv => add_int64 l (Z.of_nat (length kv.2))) acc l
            = acc + foldr (fun kv n => Z.of_nat (length kv.2) + n) 0 l).
  { induction l as [|kv l IH]; intros acc Hacc Hlt; simpl in *; [lia|].
    assert (0 <= foldr (fun kv n => Z.of_nat (length kv.2) + n) 0 l).
    { clear. induction l; simpl; lia. }
    rewrite add_int64_small by lia. rewrite IH by lia. lia. }
  intros Hlt. rewrite Hgen; lia.
Qed.

Lemma oldest_in_spec q o :
  oldest_in q o <= o /\
  (forall m, m ∈ q -> oldest_in q o <= Stamp m) /\
  (oldest_in q o = o \/ exists m, m ∈ q /\ oldest_in q o = Stamp m).
Proof.
  revert o. induction q as [|x q IH]; intros o; unfold oldest_in; simpl.
  - split; [lia|]. split; [|by left]. intros m Hm. by apply elem_of_nil in Hm.
  - fold (oldest_in q (if Stamp x <? o then Stamp x else o)).
    destruct (IH (if Stamp x <? o then Stamp x else o)) as (Hle & Hall & Hsome).
    destruct (Stamp x <? o) eqn:Hlt;
      [apply Z.ltb_lt in Hlt | apply Z.ltb_ge in Hlt].
    + split; [lia|]. split.
      * intros m Hm. apply elem_of_cons in Hm as [->|Hm]; [lia | by apply Hall].
      * right. destruct Hsome as [->|(m & Hm & ->)].
        -- exists x. split; [left | reflexivity].
        -- exists m. split; [by right | reflexivity].
    + split; [lia|]. split.
      * intros m Hm. apply elem_of_cons in Hm as [->|Hm]; [lia | by apply Hall].
      * destruct Hsome as [->|(m & Hm & ->)]; [by left|].
        right. exists m. split; [by right | reflexivity].
Qed.

Lemma oldest_loop_spec (l : list (Address * list (QueuedMessage Address))) o :
  let r := foldl (fun o kv => oldest_in kv.2 o) o l in
  r <= o /\
  (forall kv m, kv ∈ l -> m ∈ kv.2 -> r <= Stamp m) /\
  (r = o \/ exists kv m, kv ∈ l /\ m ∈ kv.2 /\ r = Stamp m).
Proof.
  revert o. induction l as [|kv l IH]; intros o; simpl.
  - split; [lia|]. split; [|by left]. intros kv m Hkv. by apply elem_of_nil in Hkv.
  - destruct (IH (oldest_in kv.2 o)) as (Hle & Hall & Hsome).
    destruct (oldest_in_spec kv.2 o) as (Hle' & Hall' & Hsome').
    split; [lia|]. split.
    + intros kv' m Hkv Hm. apply elem_of_cons in Hkv as [->|Hkv].
      * specialize (Hall' m Hm). lia.
      * by apply (Hall kv').
    + destruct Hsome as [Heq|(kv' & m & Hkv & Hm & Heq)].
      * destruct Hsome' as [Heq'|(m & Hm & Heq')].
        -- left. congruence.
        -- right. exists kv, m. split; [left|]. split; [done | congruence].
      * right. exists kv', m. split; [by right | done].
Qed.

(** With at least one message queued and stamps in range, [Oldest] is the
    least stamp over all entries of all sequences. *)
Lemma Oldest_least mq sender q m :
  queues_ok mq -> queues mq !! sender = Some q -> m ∈ q ->
  (forall s' q' m', queues mq !! s' = Some q' -> m' ∈ q' -> Oldest mq <= Stamp m') /\
  (exists s' q' m', queues mq !! s' = Some q' /\ m' ∈ q' /\ Oldest mq = Stamp m').
Proof.
  intros Hok Hq Hm. unfold Oldest.
  destruct (size (queues mq) =? 0)%nat eqn:Hsize.
  { apply Nat.eqb_eq, map_size_empty_iff in Hsize.
    rewrite Hsize, lookup_empty in Hq. discriminate. }
  destruct (oldest_loop_spec (map_to_list (queues mq)) max_uint64)
    as (_ & Hall & Hsome). simpl in Hall, Hsome.
  assert (Hleast : forall s' q' m', queues mq !! s' = Some q' -> m' ∈ q' ->
            foldl (fun o kv => oldest_in kv.2 o) max_uint64 (map_to_list (queues mq))
            <= Stamp m').
  { intros s' q' m' Hq' Hm'. apply (Hall (s', q') m'); [|done].
    by apply elem_of_map_to_list. }
  split; [exact Hleast|].
  destruct Hsome as [Heq|([s' q'] & m' & Hkv & Hm' & Heq)].
  - exists sender, q, m. split; [done|]. split; [done|].
    specialize (Hleast sender q m Hq Hm).
    destruct (Hok sender q Hq) as (_ & _ & Hstamps).
    pose proof (proj1 (Forall_forall _ _) Hstamps m Hm) as Hrange.
    unfold is_uint64 in Hrange. lia.
  - exists s', q', m'. split; [by apply elem_of_map_to_list | done].
Qed.

(** With keys left in the map but no message queued, [Oldest] is the
    initial value of its scan. *)
Lemma Oldest_drained mq :
  queues mq <> ∅ ->
  (forall sender q, queues mq !! sender = Some q -> q = []) ->
  Oldest mq = max_uint64.
Proof.
  intros Hne Hall. unfold Oldest.
  destruct (size (queues mq) =? 0)%nat eqn:Hsize.
  { apply Nat.eqb_eq, map_size_empty_iff in Hsize. contradiction. }
  destruct (oldest_loop_spec (map_to_list (queues mq)) max_uint64)
    as (_ & _ & [Heq|([s' q'] & m' & Hkv & Hm' & _)]); [exact Heq|].
  apply elem_of_map_to_list in Hkv. rewrite (Hall s' q' Hkv) in Hm'.
  by apply elem_of_nil in Hm'.
Qed.

Lemma Oldest_new : Oldest (NewMessageQueue : MessageQueue Address) = 0.
Proof. reflexivity. Qed.

(** ** One sender at a time *)

Lemma queue_of_cons_lookup mq sender x q :
  queue_of mq sender = x :: q -> queues mq !! sender = Some (x :: q).
Proof.
  unfold queue_of. destruct (queues mq !! sender) as [q'|]; simpl; [|discriminate].
  by intros ->.
Qed.

(** X1: a mutator changes the binding of one sender only. [Enqueue] and
    [Requeue] leave every sender other than the message's as it was, and
    [RemoveNext] and [Clear] every sender other than the one they name. *)
Theorem mutators_touch_one_sender mq m stamp sender n other :
  (other <> From m ->
     queues (Enqueue mq m stamp).1 !! other = queues mq !! other /\
     queues (Requeue mq m stamp).1 !! other = queues mq !! other) /\
  (other <> sender ->
     queues (RemoveNext mq sender n).1 !! other = queues mq !! other /\
     queues (Clear mq sender).1 !! other = queues mq !! other).
Proof.
  split; intros Hne; split.
  - unfold Enqueue. destruct (last (queue_of mq (From m))) as [back|]; simpl.
    + destruct (Nonce m =? add64 (Nonce (Msg back)) 1); simpl; [|done].
      by rewrite lookup_insert_ne.
    + by rewrite lookup_insert_ne.
  - unfold Requeue. destruct (queue_of mq (From m)) as [|front rest]; simpl.
    + by rewrite lookup_insert_ne.
    + destruct (Nonce m =? sub64 (Nonce (Msg front)) 1); simpl; [|done].
      by rewrite lookup_insert_ne.
  - unfold RemoveNext. destruct (queue_of mq sender) as [|head rest]; simpl; [done|].
    destruct (n =? Nonce (Msg head)); simpl.
    + by rewrite lookup_insert_ne.
    + by destruct (Nonce (Msg head) <? n).
  - unfold Clear. simpl. by rewrite lookup_delete_ne.
Qed.

(** X2: a successful [Enqueue] puts the message, with its stamp, at the back
    of its sender's sequence, and [LargestNonce] then returns its nonce; a
    successful [Requeue] puts it at the front. *)
Theorem Enqueue_Requeue_store mq m stamp :
  ((Enqueue mq m stamp).2 = None ->
     List (Enqueue mq m stamp).1 (From m)
     = List mq (From m) ++ [mkQueuedMessage m stamp] /\
     LargestNonce (Enqueue mq m stamp).1 (From m) = (Nonce m, true)) /\
  ((Requeue mq m stamp).2 = None ->
     List (Requeue mq m stamp).1 (From m)
     = mkQueuedMessage m stamp :: List mq (From m)).
Proof.
  assert (Hput : forall q,
            List (set_queue mq (From m) (q ++ [mkQueuedMessage m stamp])) (From m)
            = q ++ [mkQueuedMessage m stamp] /\
            LargestNonce (set_queue mq (From m) (q ++ [mkQueuedMessage m stamp])) (From m)
            = (Nonce m, true)).
  { intros q. unfold LargestNonce, List. rewrite queue_of_set_eq.
    by rewrite last_snoc. }
  unfold List in *. split.
  - unfold Enqueue. destruct (last (queue_of mq (From m))) as [back|]; simpl.
    + destruct (Nonce m =? add64 (Nonce (Msg back)) 1); simpl; [|discriminate].
      intros _. apply Hput.
    + intros _. apply Hput.
  - unfold Requeue. destruct (queue_of mq (From m)) as [|front rest] eqn:Hq; simpl.
    + intros _. by rewrite queue_of_set_eq.
    + destruct (Nonce m =? sub64 (Nonce (Msg front)) 1); simpl; [|discriminate].
      intros _. by rewrite queue_of_set_eq.
Qed.

(** ** Messages are filed under their sender *)

Lemma filed_ok_set mq sender q :
  filed_ok mq -> Forall (fun qm => From (Msg qm) = sender) q ->
  filed_ok (set_queue mq sender q).
Proof.
  intros Hok Hq s q'. unfold set_queue. simpl.
  destruct (decide (sender = s)) as [->|Hne].
  - rewrite lookup_insert_eq. by intros [= <-].
  - rewrite lookup_insert_ne by done. apply Hok.
Qed.

Lemma filed_ok_queue_of mq sender :
  filed_ok mq -> Forall (fun qm => From (Msg qm) = sender) (queue_of mq sender).
Proof.
  intros Hok. unfold queue_of.
  destruct (queues mq !! sender) as [q|] eqn:Hq; simpl; [by apply Hok | by constructor].
Qed.

Lemma reachable_filed mq : reachable mq -> filed_ok mq.
Proof.
  induction 1 as [|mq m stamp _ IH _ _|mq m stamp _ IH _ _
                  |mq sender n _ IH _|mq sender _ IH|mq stamp _ IH _].
  - intros s q. unfold NewMessageQueue. simpl. by rewrite lookup_empty.
  - pose proof (filed_ok_queue_of mq (From m) IH) as Hq.
    assert (Hnew : filed_ok (set_queue mq (From m)
                     (queue_of mq (From m) ++ [mkQueuedMessage m stamp]))).
    { apply filed_ok_set; [exact IH|].
      apply Forall_app. split; [exact Hq | by apply Forall_singleton]. }
    unfold Enqueue. destruct (last (queue_of mq (From m))) as [back|]; simpl; [|exact Hnew].
    by destruct (Nonce m =? add64 (Nonce (Msg back)) 1).
  - pose proof (filed_ok_queue_of mq (From m) IH) as Hq.
    assert (Hnew : filed_ok (set_queue mq (From m)
                     (mkQueuedMessage m stamp :: queue_of mq (From m)))).
    { apply filed_ok_set; [exact IH|]. by apply Forall_cons. }
    unfold Requeue in *. destruct (queue_of mq (From m)) as [|front rest]; simpl;
      [exact Hnew|].
    by destruct (Nonce m =? sub64 (Nonce (Msg front)) 1).
  - pose proof (filed_ok_queue_of mq sender IH) as Hq.
    unfold RemoveNext. destruct (queue_of mq sender) as [|head rest]; simpl; [exact IH|].
    destruct (n =? Nonce (Msg head)); simpl.
    + apply filed_ok_set; [exact IH|]. by apply Forall_cons in Hq as [_ Hq].
    + by destruct (Nonce (Msg head) <? n).
  - intros s q. unfold Clear. simpl. intros Hq.
    apply lookup_delete_Some in Hq as [_ Hq]. by apply (IH s).
  - intros s q Hq. apply ExpireBefore_lookup in Hq as [->|Hq]; [by constructor|].
    by apply (IH s).
Qed.

(** What [ExpireBefore] returns for a sender is the messages of a sequence
    that was bound to that sender and whose front stamp was below the
    threshold. *)
Lemma ExpireBefore_returned_inv mq stamp sender msgs :
  (ExpireBefore mq stamp).2 !! sender = Some msgs ->
  exists front rest,
    queues mq !! sender = Some (front :: rest) /\ Stamp front < stamp /\
    msgs = Msg <$> front :: rest.
Proof.
  intros Hret. destruct (expires stamp (queue_of mq sender)) eqn:Hexp.
  - apply expires_cons in Hexp as Hq. destruct Hq as (front & rest & Hq & Hlt).
    apply queue_of_cons_lookup in Hq as Hlook.
    rewrite Hq in Hexp.
    destruct (ExpireBefore_expired mq stamp sender _ Hlook Hexp) as [_ H2].
    exists front, rest. split; [exact Hlook|]. split; [exact Hlt | congruence].
  - destruct (ExpireBefore_kept mq stamp sender Hexp) as [_ H2]. congruence.
Qed.

(** X3: in a reachable queue every message is queued under the address in
    its own [From] field, and so is every message [ExpireBefore] returns. *)
Theorem messages_filed_under_sender mq sender :
  reachable mq ->
  (forall qm, qm ∈ List mq sender -> From (Msg qm) = sender) /\
  (forall stamp msgs m,
     (ExpireBefore mq stamp).2 !! sender = Some msgs -> m ∈ msgs -> From m = sender).
Proof.
  intros Hreach. pose proof (reachable_filed mq Hreach) as Hok.
  split.
  - intros qm Hin. unfold List in Hin.
    by apply (proj1 (Forall_forall _ _) (filed_ok_queue_of mq sender Hok)).
  - intros stamp msgs m Hret Hin.
    apply ExpireBefore_returned_inv in Hret as (front & rest & Hq & _ & ->).
    apply list_elem_of_fmap in Hin as (qm & -> & Hin).
    by apply (proj1 (Forall_forall _ _) (Hok sender _ Hq)).
Qed.

(** ** The shape of a sequence *)

Lemma add64_add (z : Z) (i : nat) :
  add64 ((z + Z.of_nat i) mod 2 ^ 64) 1 = (z + Z.of_nat (S i)) mod 2 ^ 64.
Proof.
  unfold add64. rewrite Zplus_mod_idemp_l. f_equal. lia.
Qed.

Lemma run_from_front q front :
  contiguous64 q -> nonces_in_range q -> head q = Some front ->
  forall (i : nat) a, q !! i = Some a ->
    Nonce (Msg a) = (Nonce (Msg front) + Z.of_nat i) mod 2 ^ 64.
Proof.
  intros Hrun Hrange Hfront i. induction i as [|i IH]; intros a Ha.
  - destruct q as [|x q]; [discriminate|]. simpl in Hfront, Ha.
    injection Hfront as ->. injection Ha as ->.
    apply Forall_cons in Hrange as [Hx _]. unfold is_uint64, max_uint64 in Hx.
    rewrite Z.add_0_r, Z.mod_small; lia.
  - destruct (q !! i) as [a'|] eqn:Ha'.
    + rewrite (Hrun i a' a Ha' Ha), (IH a' eq_refl). apply add64_add.
    + apply lookup_ge_None in Ha'. apply lookup_lt_Some in Ha. lia.
Qed.

(** X4: in a reachable queue the nonce at position [i] of a sender's
    sequence is the front nonce plus [i], modulo [2^64]. *)
Theorem nonce_at_position mq sender front rest (i : nat) a :
  reachable mq ->
  List mq sender = front :: rest ->
  List mq sender !! i = Some a ->
  Nonce (Msg a) = (Nonce (Msg front) + Z.of_nat i) mod 2 ^ 64.
Proof.
  intros Hreach Hq Ha.
  destruct (queue_ok_queue_of mq sender (reachable_ok mq Hreach)) as (Hrun & Hn & _).
  unfold List in *. apply (run_from_front (queue_of mq sender)); try done.
  by rewrite Hq.
Qed.

(** X5: in a reachable queue, when the run that starts at the front nonce
    stays below [2^64], [LargestNonce] returns the front nonce plus the
    number of entries behind the front, and no queued nonce of that sender
    is larger. *)
Theorem LargestNonce_is_largest mq sender front rest :
  reachable mq ->
  List mq sender = front :: rest ->
  Nonce (Msg front) + Z.of_nat (length rest) <= max_uint64 ->
  LargestNonce mq sender = (Nonce (Msg front) + Z.of_nat (length rest), true) /\
  (forall qm, qm ∈ List mq sender ->
     Nonce (Msg front) <= Nonce (Msg qm) <= Nonce (Msg front) + Z.of_nat (length rest)).
Proof.
  intros Hreach Hq Hfit.
  destruct (queue_ok_queue_of mq sender (reachable_ok mq Hreach)) as (Hrun & Hn & _).
  unfold List in *.
  assert (Hfront : 0 <= Nonce (Msg front)).
  { rewrite Hq in Hn. apply Forall_cons in Hn as [Hn _]. unfold is_uint64 in Hn. lia. }
  assert (Hat : forall (i : nat) a, queue_of mq sender !! i = Some a ->
            Nonce (Msg a) = Nonce (Msg front) + Z.of_nat i /\ (i <= length rest)%nat).
  { intros i a Ha. pose proof (lookup_lt_Some _ _ _ Ha) as Hlt.
    rewrite Hq in Hlt. simpl in Hlt.
    rewrite (run_from_front _ front Hrun Hn ltac:(by rewrite Hq) i a Ha).
    unfold max_uint64 in Hfit. rewrite Z.mod_small; lia. }
  split.
  - unfold LargestNonce. rewrite last_lookup.
    destruct (queue_of mq sender !! Init.Nat.pred (length (queue_of mq sender)))
      as [back|] eqn:Hback.
    + destruct (Hat _ _ Hback) as [-> _]. rewrite Hq. simpl. reflexivity.
    + apply lookup_ge_None in Hback. rewrite Hq in Hback. simpl in Hback. lia.
  - intros qm Hin. apply list_elem_of_lookup in Hin as [i Hi].
    destruct (Hat i qm Hi) as [-> Hle]. lia.
Qed.

(** ** Requeue and removal *)

(** X6: a successful [Requeue] of [m] is undone by [RemoveNext] on [m]'s
    sender and nonce: the call returns [m], found, without error, and the
    sender's sequence is the one before the requeue; the whole queue is the
    one before the requeue when the sender's key was present. *)
Theorem Requeue_then_RemoveNext mq m stamp :
  (Requeue mq m stamp).2 = None ->
  RemoveNext (Requeue mq m stamp).1 (From m) (Nonce m)
  = (set_queue mq (From m) (List mq (From m)), mkRemoveResult (Some m) true None) /\
  (is_Some (queues mq !! From m) -> set_queue mq (From m) (List mq (From m)) = mq).
Proof.
  intros Hok. unfold List. split.
  - assert (Hstate : (Requeue mq m stamp).1
              = set_queue mq (From m) (mkQueuedMessage m stamp :: queue_of mq (From m))).
    { unfold Requeue in *. destruct (queue_of mq (From m)) as [|front rest]; simpl in *;
        [reflexivity|].
      by destruct (Nonce m =? sub64 (Nonce (Msg front)) 1). }
    rewrite Hstate. unfold RemoveNext. rewrite queue_of_set_eq. simpl.
    by rewrite Z.eqb_refl, set_queue_set_queue.
  - intros [q Hq]. apply set_queue_id. by rewrite (queue_of_lookup _ _ _ Hq).
Qed.

(** X7: in a reachable queue, what [RemoveNext] has removed can be put back:
    [Requeue] of the removed message with the stamp it had succeeds and
    gives the queue from before the removal. *)
Theorem RemoveNext_then_Requeue mq sender head rest :
  reachable mq ->
  List mq sender = head :: rest ->
  RemoveNext mq sender (Nonce (Msg head))
  = (set_queue mq sender rest, mkRemoveResult (Some (Msg head)) true None) /\
  Requeue (set_queue mq sender rest) (Msg head) (Stamp head) = (mq, None).
Proof.
  intros Hreach Hq. unfold List in Hq.
  destruct (queue_ok_queue_of mq sender (reachable_ok mq Hreach)) as (Hrun & Hn & _).
  pose proof (filed_ok_queue_of mq sender (reachable_filed mq Hreach)) as Hfiled.
  rewrite Hq in Hrun, Hn, Hfiled.
  apply Forall_cons in Hfiled as [Hfrom _]. apply Forall_cons in Hn as [Hhead _].
  simpl in Hfrom, Hhead.
  assert (Hback : set_queue (set_queue mq sender rest) sender (head :: rest) = mq).
  { rewrite set_queue_set_queue. apply set_queue_id. by apply queue_of_cons_lookup. }
  split.
  - unfold RemoveNext. by rewrite Hq, Z.eqb_refl.
  - unfold Requeue. rewrite Hfrom, queue_of_set_eq.
    destruct head as [hm hs]. simpl in *.
    destruct rest as [|next rest]; [by rewrite Hback|].
    pose proof (Hrun 0%nat _ next eq_refl eq_refl) as Hnext. simpl in Hnext.
    rewrite Hnext, add64_sub64_inv by exact Hhead.
    by rewrite Z.eqb_refl, Hback.
Qed.

(** ** Counting messages *)

Lemma total_length_fold (m : gmap Address (list (QueuedMessage Address))) :
  foldr (fun kv n => Z.of_nat (length kv.2) + n) 0 (map_to_list m)
  = map_fold (fun _ v n => Z.of_nat (length v) + n) 0 m.
Proof.
  rewrite map_fold_foldr. induction (map_to_list m) as [|[k v] l IH]; simpl; congruence.
Qed.

Lemma total_length_insert_fresh (m : gmap Address (list (QueuedMessage Address))) sender q :
  m !! sender = None ->
  total_length {| queues := <[sender := q]> m |}
  = Z.of_nat (length q) + total_length {| queues := m |}.
Proof.
  intros Hfresh. unfold total_length. simpl. rewrite !total_length_fold.
  rewrite map_fold_insert_L; [reflexivity | | exact Hfresh].
  intros. lia.
Qed.

Lemma total_length_delete mq sender :
  total_length {| queues := delete sender (queues mq) |}
  = total_length mq - Z.of_nat (length (queue_of mq sender)).
Proof.
  destruct mq as [m]. unfold queue_of. simpl.
  destruct (m !! sender) as [q0|] eqn:Hq; simpl.
  - rewrite <- (insert_delete_id m sender q0 Hq) at 2.
    rewrite total_length_insert_fresh by apply lookup_delete_eq. lia.
  - rewrite delete_id by exact Hq. lia.
Qed.

Lemma total_length_set mq sender q :
  total_length (set_queue mq sender q)
  = total_length mq - Z.of_nat (length (queue_of mq sender)) + Z.of_nat (length q).
Proof.
  unfold set_queue. rewrite <- insert_delete_eq.
  rewrite total_length_insert_fresh by apply lookup_delete_eq.
  rewrite total_length_delete. lia.
Qed.

Lemma total_length_nonneg mq : 0 <= total_length mq.
Proof. unfold total_length. induction (map_to_list (queues mq)); simpl; lia. Qed.

Lemma total_length_zero mq :
  total_length mq = 0 <-> forall sender, queue_of mq sender = [].
Proof.
  split.
  - intros Hzero sender. destruct (queue_of mq sender) as [|x q] eqn:Hq; [reflexivity|].
    pose proof (total_length_set mq sender []) as Hset.
    pose proof (total_length_nonneg (set_queue mq sender [])) as Hge.
    rewrite Hq in Hset. simpl length in Hset. lia.
  - intros Hall. unfold total_length.
    assert (Hbind : forall kv, kv ∈ map_to_list (queues mq) -> kv.2 = []).
    { intros [k v] Hin. apply elem_of_map_to_list in Hin.
      rewrite <- (queue_of_lookup _ _ _ Hin). apply Hall. }
    induction (map_to_list (queues mq)) as [|kv l IH]; simpl; [reflexivity|].
    rewrite (Hbind kv) by left. rewrite IH; [reflexivity|].
    intros kv' Hin. apply Hbind. by right.
Qed.

(** X8: as long as the number of queued messages is below [2^63], [Size]
    returns that number, the sum of the lengths of all sequences; it is 0
    exactly when no sender has a message. *)
Theorem Size_counts_messages mq :
  total_length mq < 2 ^ 63 ->
  Size mq = total_length mq /\
  0 <= Size mq /\
  (Size mq = 0 <-> forall sender, List mq sender = []).
Proof.
  intros Hfit. rewrite (Size_total mq Hfit).
  split; [reflexivity|]. split; [apply total_length_nonneg | apply total_length_zero].
Qed.

(** X9: with the count of messages below [2^63 - 1], [Size] follows the
    mutators: a successful [Enqueue] or [Requeue] adds one, a [RemoveNext]
    that finds its message takes one off, and [Clear] takes off the length
    of the cleared sequence. *)
Theorem Size_follows_mutators mq m stamp sender n :
  total_length mq < 2 ^ 63 - 1 ->
  ((Enqueue mq m stamp).2 = None -> Size (Enqueue mq m stamp).1 = Size mq + 1) /\
  ((Requeue mq m stamp).2 = None -> Size (Requeue mq m stamp).1 = Size mq + 1) /\
  (found (RemoveNext mq sender n).2 = true ->
     Size (RemoveNext mq sender n).1 = Size mq - 1) /\
  Size (Clear mq sender).1 = Size mq - Z.of_nat (length (List mq sender)).
Proof.
  intros Hfit. rewrite (Size_total mq) by lia. unfold List.
  pose proof (total_length_nonneg mq) as Hge.
  assert (Hset : forall s q, (length q <= S (length (queue_of mq s)))%nat ->
            Size (set_queue mq s q)
            = total_length mq - Z.of_nat (length (queue_of mq s)) + Z.of_nat (length q)).
  { intros s q Hlen. rewrite Size_total; rewrite total_length_set; lia. }
  split; [|split; [|split]].
  - unfold Enqueue. destruct (last (queue_of mq (From m))) as [back|]; simpl.
    + destruct (Nonce m =? add64 (Nonce (Msg back)) 1); simpl; [|discriminate].
      intros _. rewrite Hset; rewrite length_app; simpl; lia.
    + intros _. rewrite Hset; rewrite length_app; simpl; lia.
  - unfold Requeue. destruct (queue_of mq (From m)) as [|front rest] eqn:Hq; simpl.
    + intros _. rewrite Hset; rewrite Hq; simpl; lia.
    + destruct (Nonce m =? sub64 (Nonce (Msg front)) 1); simpl; [|discriminate].
      intros _. rewrite Hset; rewrite Hq; simpl; lia.
  - unfold RemoveNext. destruct (queue_of mq sender) as [|head rest] eqn:Hq; simpl;
      [discriminate|].
    destruct (n =? Nonce (Msg head)); simpl.
    + intros _. rewrite Hset; rewrite Hq; simpl; lia.
    + destruct (Nonce (Msg head) <? n); discriminate.
  - unfold Clear. simpl.
    pose proof (total_length_delete mq sender) as Hdel.
    pose proof (total_length_nonneg {| queues := delete sender (queues mq) |}) as Hge'.
    rewrite Size_total; lia.
Qed.

(** X10: [Queues] returns no address twice, returns as many addresses as
    the map has keys, and returns every sender that has a message. *)
Theorem Queues_lists_every_sender mq :
  NoDup (Queues mq) /\
  length (Queues mq) = size (queues mq) /\
  (forall sender, List mq sender <> [] -> sender ∈ Queues mq).
Proof.
  split; [|split].
  - rewrite Queues_keys. apply NoDup_fst_map_to_list.
  - by rewrite Queues_keys, length_fmap, length_map_to_list.
  - intros sender Hq. apply Queues_elem. unfold List, queue_of in Hq.
    destruct (queues mq !! sender) as [q|]; [by exists q | done].
Qed.

(** X11: in a reachable queue that holds a message, [Oldest] is a stamp of
    some queued message and no queued message has a smaller stamp. *)
Theorem Oldest_is_least_stamp mq sender qm :
  reachable mq ->
  qm ∈ List mq sender ->
  (forall sender' qm', qm' ∈ List mq sender' -> Oldest mq <= Stamp qm') /\
  (exists sender' qm', qm' ∈ List mq sender' /\ Oldest mq = Stamp qm').
Proof.
  intros Hreach Hin. unfold List in *.
  assert (Hlook : forall s x, x ∈ queue_of mq s ->
            exists q, queues mq !! s = Some q /\ x ∈ q).
  { intros s x Hx. unfold queue_of in Hx.
    destruct (queues mq !! s) as [q|]; simpl in Hx; [by exists q|].
    by apply elem_of_nil in Hx. }
  destruct (Hlook _ _ Hin) as (q & Hq & Hqm).
  destruct (Oldest_least mq sender q qm (reachable_ok mq Hreach) Hq Hqm)
    as [Hleast (s' & q' & m' & Hq' & Hm' & Heq)].
  split.
  - intros s x Hx. destruct (Hlook _ _ Hx) as (qx & Hqx & Hxin).
    by apply (Hleast s qx).
  - exists s', m'. split; [|exact Heq]. by rewrite (queue_of_lookup _ _ _ Hq').
Qed.

(** ** More on expiration *)

Lemma ExpireBefore_nothing mq stamp :
  (forall sender, expires stamp (queue_of mq sender) = false) ->
  ExpireBefore mq stamp = (mq, ∅).
Proof.
  intros Hnone.
  assert (H1 : queues (ExpireBefore mq stamp).1 = queues mq).
  { apply map_eq. intros s. by destruct (ExpireBefore_kept mq stamp s (Hnone s)). }
  assert (H2 : (ExpireBefore mq stamp).2 = ∅).
  { apply map_eq. intros s. rewrite lookup_empty.
    by destruct (ExpireBefore_kept mq stamp s (Hnone s)). }
  destruct (ExpireBefore mq stamp) as [[qs] e]. destruct mq as [m].
  simpl in *. by subst.
Qed.

Lemma expires_after_ExpireBefore mq stamp sender :
  expires stamp (queue_of (ExpireBefore mq stamp).1 sender) = false.
Proof.
  unfold queue_of at 1.
  destruct (queues (ExpireBefore mq stamp).1 !! sender) as [q|] eqn:Hq; [|reflexivity].
  simpl. destruct (expires stamp q) eqn:Hexp; [|reflexivity].
  apply ExpireBefore_lookup in Hq as Hcase. destruct Hcase as [->|Hold]; [discriminate|].
  destruct (ExpireBefore_expired mq stamp sender q Hold Hexp) as [Hnil _].
  rewrite Hnil in Hq. injection Hq as <-. discriminate.
Qed.

(** X12: [ExpireBefore] is idempotent: a second call with the same
    threshold returns the empty map and leaves the queue as the first call
    left it. *)
Theorem ExpireBefore_idempotent mq stamp :
  ExpireBefore (ExpireBefore mq stamp).1 stamp = ((ExpireBefore mq stamp).1, ∅).
Proof. apply ExpireBefore_nothing. intros sender. apply expires_after_ExpireBefore. Qed.

(** X13: [ExpireBefore] deletes no key and adds none; every entry of the
    map it returns is the non-empty list of the messages, in queue order, of
    a sequence bound to that sender whose front stamp was below the
    threshold. *)
Theorem ExpireBefore_keys_and_result mq stamp sender :
  (is_Some (queues (ExpireBefore mq stamp).1 !! sender)
   <-> is_Some (queues mq !! sender)) /\
  (forall msgs, (ExpireBefore mq stamp).2 !! sender = Some msgs ->
     msgs <> [] /\
     msgs = Msg <$> List mq sender /\
     exists front rest, List mq sender = front :: rest /\ Stamp front < stamp).
Proof.
  split.
  - destruct (expires stamp (queue_of mq sender)) eqn:Hexp.
    + apply expires_cons in Hexp as Hq. destruct Hq as (front & rest & Hq & _).
      apply queue_of_cons_lookup in Hq as Hlook. rewrite Hq in Hexp.
      destruct (ExpireBefore_expired mq stamp sender _ Hlook Hexp) as [H1 _].
      rewrite H1, Hlook. split; intros _; eauto.
    + destruct (ExpireBefore_kept mq stamp sender Hexp) as [H1 _]. by rewrite H1.
  - intros msgs Hret.
    apply ExpireBefore_returned_inv in Hret as (front & rest & Hq & Hlt & ->).
    unfold List. rewrite (queue_of_lookup _ _ _ Hq).
    split; [discriminate|]. split; [reflexivity|]. by exists front, rest.
Qed.

(** X14: in a reachable queue, a threshold that is not above [Oldest]
    expires nothing: [ExpireBefore] returns the empty map and the queue is
    unchanged. *)
Theorem ExpireBefore_up_to_Oldest mq stamp :
  reachable mq ->
  stamp <= Oldest mq ->
  ExpireBefore mq stamp = (mq, ∅).
Proof.
  intros Hreach Hle. apply ExpireBefore_nothing. intros sender.
  destruct (queue_of mq sender) as [|front rest] eqn:Hq; [reflexivity|].
  simpl. apply Z.ltb_ge.
  apply queue_of_cons_lookup in Hq.
  destruct (Oldest_least mq sender (front :: rest) front (reachable_ok mq Hreach) Hq)
    as [Hleast _]; [left|].
  specialize (Hleast sender (front :: rest) front Hq ltac:(left)). lia.
Qed.

(** ** Removing a whole sequence in order *)

Lemma remove_in_order_all sender q :
  forall mq, queue_of mq sender = q -> q <> [] ->
    remove_in_order mq sender ((fun qm => Nonce (Msg qm)) <$> q)
    = (set_queue mq sender [],
       (fun qm => mkRemoveResult (Some (Msg qm)) true None) <$> q).
Proof.
  induction q as [|x q IH]; intros mq Hq Hne; [done|].
  assert (Hstep : RemoveNext mq sender (Nonce (Msg x))
                  = (set_queue mq sender q, mkRemoveResult (Some (Msg x)) true None)).
  { unfold RemoveNext. by rewrite Hq, Z.eqb_refl. }
  rewrite !fmap_cons.
  change (remove_in_order mq sender
            (Nonce (Msg x) :: ((fun qm => Nonce (Msg qm)) <$> q)))
    with (let r := RemoveNext mq sender (Nonce (Msg x)) in
          let rs := remove_in_order r.1 sender ((fun qm => Nonce (Msg qm)) <$> q) in
          (rs.1, r.2 :: rs.2)).
  rewrite Hstep. cbv zeta. cbn [fst snd].
  destruct q as [|y q].
  - reflexivity.
  - rewrite (IH (set_queue mq sender (y :: q))); [|apply queue_of_set_eq | done].
    cbn [fst snd]. by rewrite set_queue_set_queue.
Qed.

(** X15: calling [RemoveNext] with the nonces of a sender's sequence, in
    queue order, returns every message of the sequence in that order, each
    found and without error, and leaves the sender bound to the empty
    sequence. *)
Theorem remove_in_order_drains mq sender :
  List mq sender <> [] ->
  remove_in_order mq sender ((fun qm => Nonce (Msg qm)) <$> List mq sender)
  = (set_queue mq sender [],
     (fun qm => mkRemoveResult (Some (Msg qm)) true None) <$> List mq sender).
Proof. intros Hne. by apply remove_in_order_all. Qed.

(** ** Starting a sender afresh *)

(** X16: once a sender has been cleared, or its sequence has been expired,
    [Enqueue] and [Requeue] accept a message of that sender with any
    nonce. *)
Theorem any_nonce_after_reset mq m stamp stamp' :
  ((Enqueue (Clear mq (From m)).1 m stamp).2 = None /\
   (Requeue (Clear mq (From m)).1 m stamp).2 = None) /\
  (expires stamp' (List mq (From m)) = true ->
     (Enqueue (ExpireBefore mq stamp').1 m stamp).2 = None /\
     (Requeue (ExpireBefore mq stamp').1 m stamp).2 = None).
Proof.
  assert (Hempty : forall mq0 : MessageQueue Address, queue_of mq0 (From m) = [] ->
            (Enqueue mq0 m stamp).2 = None /\ (Requeue mq0 m stamp).2 = None).
  { intros mq0 Hq. unfold Enqueue, Requeue. by rewrite Hq. }
  split.
  - apply Hempty. unfold queue_of, Clear. simpl. by rewrite lookup_delete_eq.
  - unfold List. intros Hexp. apply Hempty.
    apply expires_cons in Hexp as Hq. destruct Hq as (front & rest & Hq & _).
    apply queue_of_cons_lookup in Hq as Hlook. rewrite Hq in Hexp.
    destruct (ExpireBefore_expired mq stamp' (From m) _ Hlook Hexp) as [H1 _].
    unfold queue_of. by rewrite H1.
Qed.

(** X17: [Clear] of a sender whose key is absent returns false and changes
    nothing; in particular a second [Clear] of the same sender does. *)
Theorem Clear_absent mq sender :
  (queues mq !! sender = None -> Clear mq sender = (mq, false)) /\
  Clear (Clear mq sender).1 sender = ((Clear mq sender).1, false).
Proof.
  assert (Habsent : forall mq0 : MessageQueue Address,
            queues mq0 !! sender = None -> Clear mq0 sender = (mq0, false)).
  { intros [m0] Hnone. unfold Clear, queue_of. simpl in *.
    by rewrite Hnone, delete_id. }
  split; [apply Habsent|].
  apply Habsent. unfold Clear. simpl. apply lookup_delete_eq.
Qed.

(** ** The nonce to use next *)

(** X18: when [LargestNonce] finds a nonce [n] for a sender, [Enqueue]
    accepts a message of that sender exactly when its nonce is [n + 1] on
    [uint64]; when it finds none, [Enqueue] accepts any nonce. *)
Theorem LargestNonce_gives_next mq m stamp n :
  (LargestNonce mq (From m) = (n, true) ->
     ((Enqueue mq m stamp).2 = None <-> Nonce m = add64 n 1)) /\
  ((LargestNonce mq (From m)).2 = false -> (Enqueue mq m stamp).2 = None).
Proof.
  unfold LargestNonce, Enqueue.
  destruct (last (queue_of mq (From m))) as [back|]; simpl.
  - split; [|discriminate]. intros [= <-].
    destruct (Nonce m =? add64 (Nonce (Msg back)) 1) eqn:Heq; simpl.
    + apply Z.eqb_eq in Heq. done.
    + apply Z.eqb_neq in Heq. split; [discriminate | done].
  - split; [discriminate | done].
Qed.

(** X19: the nonce a [NonceGap] error names as expected is the one that is
    accepted: the same message with that nonce is stored by the call that
    refused it. *)
Theorem NonceGap_names_accepted_nonce mq m stamp got expected :
  ((Enqueue mq m stamp).2 = Some (NonceGap got expected) ->
     got = Nonce m /\
     (Enqueue mq (mkSignedMessage (From m) expected (Payload m)) stamp).2 = None) /\
  ((Requeue mq m stamp).2 = Some (NonceGap got expected) ->
     got = Nonce m /\
     (Requeue mq (mkSignedMessage (From m) expected (Payload m)) stamp).2 = None).
Proof.
  unfold Enqueue, Requeue. simpl. split.
  - destruct (last (queue_of mq (From m))) as [back|]; simpl; [|discriminate].
    destruct (Nonce m =? add64 (Nonce (Msg back)) 1); simpl; [discriminate|].
    intros [= <- <-]. by rewrite Z.eqb_refl.
  - destruct (queue_of mq (From m)) as [|front rest]; simpl; [discriminate|].
    destruct (Nonce m =? sub64 (Nonce (Msg front)) 1); simpl; [discriminate|].
    intros [= <- <-]. by rewrite Z.eqb_refl.
Qed.

End Properties.

(** * Scenarios *)

Ltac in_range := unfold wf_msg, is_uint64, max_uint64; simpl; lia.

Ltac reach :=
  repeat first
    [ apply reach_new
    | apply reach_enqueue; [| in_range | in_range]
    | apply reach_requeue; [| in_range | in_range]
    | apply reach_remove_next; [| in_range]
    | apply reach_clear
    | apply reach_expire_before; [| in_range] ].

Lemma reachable_queue_5 : reachable queue_5.
Proof. unfold queue_5, empty_queue. reach. Qed.

Lemma reachable_queue_5_6 : reachable queue_5_6.
Proof. unfold queue_5_6, queue_5, empty_queue. reach. Qed.

Lemma reachable_queue_4_5_6 : reachable queue_4_5_6.
Proof. unfold queue_4_5_6, queue_5_6, queue_5, empty_queue. reach. Qed.

Lemma reachable_wrapped_queue : reachable wrapped_queue.
Proof. unfold wrapped_queue, empty_queue. reach. Qed.

Lemma reachable_queue_0 : reachable queue_0.
Proof. unfold queue_0, empty_queue. reach. Qed.

Lemma reachable_queue_max : reachable queue_max.
Proof. unfold queue_max, empty_queue. reach. Qed.

Lemma reachable_two_senders : reachable two_senders.
Proof. unfold two_senders, empty_queue. reach. Qed.

Lemma reachable_drained_queue : reachable drained_queue.
Proof. unfold drained_queue, empty_queue. reach. Qed.

(** ** The scenarios of the specification *)

Example scenario_contiguity_enforcement :
  (Enqueue empty_queue (msg_of "A" 5) 100).2 = None /\
  Enqueue queue_5 (msg_of "A" 7) 101 = (queue_5, Some (NonceGap 7 6)) /\
  (Enqueue queue_5 (msg_of "A" 6) 101).2 = None /\
  List queue_5_6 "A" = [entry "A" 5 100; entry "A" 6 101].
Proof. repeat split; reflexivity. Qed.

Example scenario_requeue_below_front :
  (Requeue queue_5_6 (msg_of "A" 4) 200).2 = None /\
  Requeue queue_4_5_6 (msg_of "A" 2) 200 = (queue_4_5_6, Some (NonceGap 2 3)) /\
  List queue_4_5_6 "A" = [entry "A" 4 200; entry "A" 5 100; entry "A" 6 101].
Proof. repeat split; reflexivity. Qed.

Example scenario_remove_next :
  RemoveNext queue_4_5_6 "A" 3 = (queue_4_5_6, mkRemoveResult None false None) /\
  RemoveNext queue_4_5_6 "A" 4
  = (queue_5_6, mkRemoveResult (Some (msg_of "A" 4)) true None) /\
  RemoveNext queue_5_6 "A" 6
  = (queue_5_6, mkRemoveResult None false (Some (Inconsistency "A" 5 6))) /\
  (RemoveNext queue_5_6 "A" 5).2 = mkRemoveResult (Some (msg_of "A" 5)) true None.
Proof. repeat split; vm_compute; reflexivity. Qed.

Example scenario_expire_by_front_stamp :
  (ExpireBefore two_senders 100).2 = {[ "A" := [msg_of "A" 1; msg_of "A" 2] ]} /\
  List (ExpireBefore two_senders 100).1 "A" = [] /\
  List (ExpireBefore two_senders 100).1 "B" = [entry "B" 1 150].
Proof. repeat split; vm_compute; reflexivity. Qed.

Example scenario_size_oldest :
  Size empty_queue = 0 /\ Oldest empty_queue = 0 /\
  Size two_senders = 3 /\ Oldest two_senders = 50.
Proof. repeat split; vm_compute; reflexivity. Qed.

(** ** Instances of the theorems, and inputs at which stated properties fail *)

(** C1 at sender A of [queue_5_6], positions 0 and 1. *)
Lemma contiguity_mod_2_64_witness :
  reachable queue_5_6 /\
  List queue_5_6 "A" !! 0%nat = Some (entry "A" 5 100) /\
  List queue_5_6 "A" !! 1%nat = Some (entry "A" 6 101) /\
  Nonce (Msg (entry "A" 6 101)) = add64 (Nonce (Msg (entry "A" 5 100))) 1 /\
  (Nonce (Msg (entry "A" 5 100)) < max_uint64 ->
   Nonce (Msg (entry "A" 6 101)) = Nonce (Msg (entry "A" 5 100)) + 1).
Proof.
  split; [exact reachable_queue_5_6|].
  split; [reflexivity|]. split; [reflexivity|].
  apply (contiguity_mod_2_64 queue_5_6 "A" 0 (entry "A" 5 100) (entry "A" 6 101)).
  - exact reachable_queue_5_6.
  - reflexivity.
  - reflexivity.
Defined.

(** C1 as stated fails: two calls of [Enqueue] on the empty queue, with
    nonces [2^64 - 1] and 0, are both accepted, and the nonces of the
    sequence they build, [2^64 - 1; 0], neither ascend nor differ by one. *)
Lemma contiguity_fails_at_wrap :
  reachable wrapped_queue /\
  List wrapped_queue "A" = [entry "A" 18446744073709551615 1; entry "A" 0 2] /\
  ~ ascending (List wrapped_queue "A") /\
  ~ contiguous (List wrapped_queue "A") /\
  ~ (forall (mq : MessageQueue string) sender, reachable mq -> contiguous (List mq sender)).
Proof.
  assert (Hasc : ~ ascending (List wrapped_queue "A")).
  { intros Hasc.
    specialize (Hasc 0%nat (entry "A" max_uint64 1) (entry "A" 0 2) eq_refl eq_refl).
    vm_compute in Hasc. discriminate Hasc. }
  assert (Hrun : ~ contiguous (List wrapped_queue "A")).
  { intros Hrun. by apply Hasc, contiguous_ascending. }
  split; [exact reachable_wrapped_queue|]. split; [reflexivity|].
  split; [exact Hasc|]. split; [exact Hrun|].
  intros Hall. apply Hrun, Hall, reachable_wrapped_queue.
Qed.

(** C2 at [queue_5_6]: expected nonce 5 pops the front, 4 finds nothing,
    6 is an inconsistency; at the empty queue nothing is found. *)
Lemma RemoveNext_trichotomy_witness :
  RemoveNext queue_5_6 "A" 5
  = (set_queue queue_5_6 "A" [entry "A" 6 101],
     mkRemoveResult (Some (msg_of "A" 5)) true None) /\
  RemoveNext queue_5_6 "A" 4 = (queue_5_6, mkRemoveResult None false None) /\
  RemoveNext queue_5_6 "A" 6
  = (queue_5_6, mkRemoveResult None false (Some (Inconsistency "A" 5 6))) /\
  RemoveNext empty_queue "A" 5 = (empty_queue, mkRemoveResult None false None).
Proof.
  split; [|split; [|split]].
  - apply (proj1 (RemoveNext_trichotomy queue_5_6 "A" 5)
             (entry "A" 5 100) [entry "A" 6 101]); reflexivity.
  - apply (proj1 (proj2 (RemoveNext_trichotomy queue_5_6 "A" 4))
             (entry "A" 5 100) [entry "A" 6 101]); [reflexivity | simpl; lia].
  - apply (proj1 (proj2 (proj2 (RemoveNext_trichotomy queue_5_6 "A" 6)))
             (entry "A" 5 100) [entry "A" 6 101]); [reflexivity | simpl; lia].
  - apply (proj1 (proj2 (proj2 (proj2 (RemoveNext_trichotomy empty_queue "A" 5))))).
    reflexivity.
Defined.

(** C3 at [queue_5_6]: nonce 8 is refused by [Enqueue] (7 expected) and by
    [Requeue] (4 expected), and the queue stays as it was. *)
Lemma nonce_gap_iff_witness :
  (Enqueue queue_5_6 (msg_of "A" 8) 300).2 = Some (NonceGap 8 7) /\
  (Requeue queue_5_6 (msg_of "A" 8) 300).2 = Some (NonceGap 8 4) /\
  (Enqueue queue_5_6 (msg_of "A" 8) 300).1 = queue_5_6 /\
  (Requeue queue_5_6 (msg_of "A" 8) 300).1 = queue_5_6 /\
  Enqueue empty_queue (msg_of "A" 8) 300
  = (set_queue empty_queue "A" [entry "A" 8 300], None).
Proof.
  pose proof (nonce_gap_iff queue_5_6 (msg_of "A" 8) 300) as (Henq & Hreq & Hsame & Hsame' & _).
  pose proof (nonce_gap_iff empty_queue (msg_of "A" 8) 300) as (_ & _ & _ & _ & Hempty).
  split; [|split; [|split; [|split]]].
  - apply Henq. exists (entry "A" 6 101).
    split; [reflexivity|]. split; [vm_compute; discriminate | reflexivity].
  - apply Hreq. exists (entry "A" 5 100).
    split; [reflexivity|]. split; [vm_compute; discriminate | reflexivity].
  - apply Hsame. discriminate.
  - apply Hsame'. discriminate.
  - apply Hempty. reflexivity.
Defined.

(** C4 at [two_senders] with threshold 100: A (front stamp 50, then 200) is
    expired whole, B (front stamp 150) is kept. *)
Lemma ExpireBefore_by_front_stamp_witness :
  ((ExpireBefore two_senders 100).2 !! "A" = Some [msg_of "A" 1; msg_of "A" 2] /\
   queues (ExpireBefore two_senders 100).1 !! "A" = Some [] /\
   List (ExpireBefore two_senders 100).1 "A" = []) /\
  (queues (ExpireBefore two_senders 100).1 !! "B" = queues two_senders !! "B" /\
   List (ExpireBefore two_senders 100).1 "B" = [entry "B" 1 150] /\
   (ExpireBefore two_senders 100).2 !! "B" = None).
Proof.
  split.
  - apply (proj1 (ExpireBefore_by_front_stamp two_senders 100 "A")
             (entry "A" 1 50) [entry "A" 2 200]); [reflexivity | simpl; lia].
  - apply (proj2 (ExpireBefore_by_front_stamp two_senders 100 "B")).
    intros front rest Hq. vm_compute in Hq. injection Hq as <- <-. simpl. lia.
Defined.

(** C5 at the failing input: after [Enqueue] of one message for A and
    [ExpireBefore] past its stamp, A has no message ([Size] is 0, [List] is
    empty, [LargestNonce] is [(0, false)]), yet [Queues] returns A. *)
Theorem Queues_returns_drained_sender :
  reachable drained_queue /\
  queues drained_queue !! "A" = Some [] /\
  Size drained_queue = 0 /\
  List drained_queue "A" = [] /\
  LargestNonce drained_queue "A" = (0, false) /\
  Queues drained_queue = ["A"].
Proof.
  split; [exact reachable_drained_queue|].
  repeat split; vm_compute; reflexivity.
Qed.

(** C6 at the failing input: the same queue holds the key of A bound to
    the empty sequence and no message at all; [Oldest] returns [2^64 - 1],
    the initial value of its scan, not 0. *)
Theorem Oldest_of_drained_queue :
  reachable drained_queue /\
  queues drained_queue = {[ "A" := [] ]} /\
  Size drained_queue = 0 /\
  Oldest drained_queue = 18446744073709551615.
Proof.
  split; [exact reachable_drained_queue|].
  repeat split; vm_compute; reflexivity.
Qed.

(** C7 at the empty queue: enqueue of nonce 5 for A, then removal. *)
Lemma enqueue_remove_on_empty_witness :
  List empty_queue (From (msg_of "A" 5)) = [] /\
  (Enqueue empty_queue (msg_of "A" 5) 100).2 = None /\
  RemoveNext (Enqueue empty_queue (msg_of "A" 5) 100).1 "A" 5
  = (set_queue empty_queue "A" [], mkRemoveResult (Some (msg_of "A" 5)) true None) /\
  (forall sender, List (set_queue empty_queue "A" []) sender = List empty_queue sender) /\
  (queues empty_queue !! "A" = Some [] -> set_queue empty_queue "A" [] = empty_queue).
Proof.
  split; [reflexivity|].
  apply (enqueue_remove_on_empty empty_queue (msg_of "A" 5) 100). reflexivity.
Defined.

(** C7 as stated fails. With nonce 5 queued for A, [Enqueue] of nonce 6
    succeeds, and [RemoveNext] for nonce 6 then meets nonce 5 at the front:
    it finds nothing and reports an [Inconsistency]. From the empty queue,
    the pair of calls returns the message but leaves A bound to the empty
    sequence, a queue other than the empty one. *)
Lemma enqueue_remove_fails_behind_front :
  reachable queue_5 /\
  (Enqueue queue_5 (msg_of "A" 6) 101).2 = None /\
  RemoveNext (Enqueue queue_5 (msg_of "A" 6) 101).1 "A" 6
  = (queue_5_6, mkRemoveResult None false (Some (Inconsistency "A" 5 6))) /\
  (RemoveNext (Enqueue empty_queue (msg_of "A" 5) 100).1 "A" 5).1 <> empty_queue /\
  ~ (forall (mq : MessageQueue string) m stamp,
       reachable mq -> wf_msg m -> is_uint64 stamp ->
       (Enqueue mq m stamp).2 = None ->
       RemoveNext (Enqueue mq m stamp).1 (From m) (Nonce m)
       = (mq, mkRemoveResult (Some m) true None)).
Proof.
  split; [exact reachable_queue_5|]. split; [reflexivity|].
  split; [vm_compute; reflexivity|]. split.
  - intros Heq. apply (f_equal (fun mq => queues mq !! "A")) in Heq.
    vm_compute in Heq. discriminate Heq.
  - intros Hall.
    specialize (Hall queue_5 (msg_of "A" 6) 101 reachable_queue_5).
    assert (Hres : RemoveNext (Enqueue queue_5 (msg_of "A" 6) 101).1 "A" 6
                   = (queue_5, mkRemoveResult (Some (msg_of "A" 6)) true None)).
    { apply Hall; [in_range | in_range | reflexivity]. }
    apply (f_equal (fun r => found r.2)) in Hres.
    vm_compute in Hres. discriminate Hres.
Qed.

(** C8 at [queue_5_6]: nonce 5 is removed once; the second call finds
    nothing and changes nothing. *)
Lemma RemoveNext_twice_witness :
  reachable queue_5_6 /\
  RemoveNext queue_5_6 "A" 5
  = (set_queue queue_5_6 "A" [entry "A" 6 101],
     mkRemoveResult (Some (msg_of "A" 5)) true None) /\
  (exists m, Some (msg_of "A" 5) = Some m /\ Nonce m = 5 /\ @None (QueueError string) = None) /\
  RemoveNext (set_queue queue_5_6 "A" [entry "A" 6 101]) "A" 5
  = (set_queue queue_5_6 "A" [entry "A" 6 101], mkRemoveResult None false None).
Proof.
  split; [exact reachable_queue_5_6|]. split; [reflexivity|].
  destruct (RemoveNext_twice queue_5_6 "A" 5
              (set_queue queue_5_6 "A" [entry "A" 6 101])
              (mkRemoveResult (Some (msg_of "A" 5)) true None)
              reachable_queue_5_6 eq_refl eq_refl) as (Hfound & Hagain & _).
  split; [exact Hfound|].
  apply Hagain. left. unfold max_uint64. simpl. lia.
Defined.

(** C8 as stated fails. In [wrapped_queue], whose nonces are [2^64 - 1; 0],
    [RemoveNext] for nonce [2^64 - 1] finds the front; the second call meets
    nonce 0 at the front and reports an [Inconsistency]. *)
Lemma second_removal_errs_at_wrap :
  reachable wrapped_queue /\
  (RemoveNext wrapped_queue "A" 18446744073709551615).2
  = mkRemoveResult (Some (msg_of "A" 18446744073709551615)) true None /\
  (RemoveNext (RemoveNext wrapped_queue "A" 18446744073709551615).1
     "A" 18446744073709551615).2
  = mkRemoveResult None false (Some (Inconsistency "A" 0 18446744073709551615)) /\
  ~ (forall (mq : MessageQueue string) sender n,
       reachable mq -> is_uint64 n ->
       found (RemoveNext mq sender n).2 = true ->
       RemoveNext (RemoveNext mq sender n).1 sender n
       = ((RemoveNext mq sender n).1, mkRemoveResult None false None)).
Proof.
  split; [exact reachable_wrapped_queue|].
  split; [vm_compute; reflexivity|]. split; [vm_compute; reflexivity|].
  intros Hall.
  specialize (Hall wrapped_queue "A" max_uint64 reachable_wrapped_queue).
  assert (Hres : RemoveNext (RemoveNext wrapped_queue "A" max_uint64).1 "A" max_uint64
                 = ((RemoveNext wrapped_queue "A" max_uint64).1,
                    mkRemoveResult None false None)).
  { apply Hall; [in_range | reflexivity]. }
  apply (f_equal (fun r => err r.2)) in Hres.
  vm_compute in Hres. discriminate Hres.
Qed.

(** C9 at [queue_5]: clearing A, and removing A's only message. *)
Lemma Clear_and_last_removal_witness :
  (queues (Clear queue_5 "A").1 !! "A" = None /\
   (Clear queue_5 "A").2 = true) /\
  (List queue_5 "A" = [entry "A" 5 100] /\
   queues (RemoveNext queue_5 "A" 5).1 !! "A" = Some [] /\
   LargestNonce (RemoveNext queue_5 "A" 5).1 "A" = (0, false) /\
   List (RemoveNext queue_5 "A" 5).1 "A" = []).
Proof.
  destruct (Clear_and_last_removal queue_5 "A") as [(Hgone & Hret & _) Hlast].
  split.
  - split; [exact Hgone|]. apply Hret. discriminate.
  - split; [reflexivity|].
    destruct (Hlast (entry "A" 5 100) eq_refl) as (_ & Hkey & Hlargest & Hlist).
    split; [exact Hkey|]. split; [exact Hlargest | exact Hlist].
Defined.

(** C9 as stated fails. [RemoveNext] for nonce 5 on [queue_5] removes the
    only message of A; the key of A is still in the map afterwards, bound
    to the empty sequence. *)
Lemma last_removal_keeps_key :
  reachable queue_5 /\
  List queue_5 "A" = [entry "A" 5 100] /\
  (RemoveNext queue_5 "A" 5).2 = mkRemoveResult (Some (msg_of "A" 5)) true None /\
  queues (RemoveNext queue_5 "A" 5).1 !! "A" = Some [] /\
  ~ (forall (mq : MessageQueue string) sender only,
       reachable mq -> List mq sender = [only] ->
       queues (RemoveNext mq sender (Nonce (Msg only))).1 !! sender = None).
Proof.
  split; [exact reachable_queue_5|]. split; [reflexivity|].
  split; [reflexivity|]. split; [reflexivity|].
  intros Hall.
  specialize (Hall queue_5 "A" (entry "A" 5 100) reachable_queue_5 eq_refl).
  vm_compute in Hall. discriminate Hall.
Qed.

(** C10 at reachable queues: [Requeue] of nonce [2^64 - 1] in front of
    nonce 0, and [Enqueue] of nonce 0 behind nonce [2^64 - 1]. *)
Lemma nonce_checks_wrap_witness :
  (reachable queue_0 /\
   Requeue queue_0 (msg_of "A" max_uint64) 2
   = (set_queue queue_0 "A" [entry "A" max_uint64 2; entry "A" 0 1], None) /\
   ~ ascending [entry "A" max_uint64 2; entry "A" 0 1]) /\
  (reachable queue_max /\
   Enqueue queue_max (msg_of "A" 0) 2
   = (set_queue queue_max "A" [entry "A" max_uint64 1; entry "A" 0 2], None) /\
   ~ ascending [entry "A" max_uint64 1; entry "A" 0 2]).
Proof.
  split.
  - split; [exact reachable_queue_0|].
    apply (proj1 (nonce_checks_wrap queue_0 (msg_of "A" max_uint64) 2)
             (entry "A" 0 1) []); reflexivity.
  - split; [exact reachable_queue_max|].
    apply (proj2 (nonce_checks_wrap queue_max (msg_of "A" 0) 2)
             (entry "A" max_uint64 1)); reflexivity.
Defined.

(** ** Instances of the further properties *)

(** X1 at [two_senders]: calls about A leave B as it was. *)
Lemma mutators_touch_one_sender_witness :
  (queues (Enqueue two_senders (msg_of "A" 3) 300).1 !! "B" = queues two_senders !! "B" /\
   queues (Requeue two_senders (msg_of "A" 0) 300).1 !! "B" = queues two_senders !! "B") /\
  (queues (RemoveNext two_senders "A" 1).1 !! "B" = queues two_senders !! "B" /\
   queues (Clear two_senders "A").1 !! "B" = queues two_senders !! "B").
Proof.
  split.
  - split.
    + apply (proj1 (mutators_touch_one_sender two_senders (msg_of "A" 3) 300 "A" 1 "B")).
      discriminate.
    + apply (proj1 (mutators_touch_one_sender two_senders (msg_of "A" 0) 300 "A" 1 "B")).
      discriminate.
  - apply (proj2 (mutators_touch_one_sender two_senders (msg_of "A" 3) 300 "A" 1 "B")).
    discriminate.
Defined.

(** X2 at [queue_5_6]: nonce 7 goes to the back, nonce 4 to the front. *)
Lemma Enqueue_Requeue_store_witness :
  (List (Enqueue queue_5_6 (msg_of "A" 7) 300).1 "A"
   = [entry "A" 5 100; entry "A" 6 101; entry "A" 7 300] /\
   LargestNonce (Enqueue queue_5_6 (msg_of "A" 7) 300).1 "A" = (7, true)) /\
  List (Requeue queue_5_6 (msg_of "A" 4) 200).1 "A"
  = [entry "A" 4 200; entry "A" 5 100; entry "A" 6 101].
Proof.
  split.
  - apply (proj1 (Enqueue_Requeue_store queue_5_6 (msg_of "A" 7) 300)). reflexivity.
  - apply (proj2 (Enqueue_Requeue_store queue_5_6 (msg_of "A" 4) 200)). reflexivity.
Defined.

(** X3 at sender A of [two_senders]. *)
Lemma messages_filed_under_sender_witness :
  reachable two_senders /\
  (forall qm, qm ∈ List two_senders "A" -> From (Msg qm) = "A") /\
  (forall stamp msgs m,
     (ExpireBefore two_senders stamp).2 !! "A" = Some msgs -> m ∈ msgs -> From m = "A").
Proof.
  split; [exact reachable_two_senders|].
  apply (messages_filed_under_sender two_senders "A"). exact reachable_two_senders.
Defined.

(** X4 at [queue_4_5_6]: position 2 holds nonce 4 + 2. *)
Lemma nonce_at_position_witness :
  reachable queue_4_5_6 /\
  List queue_4_5_6 "A" !! 2%nat = Some (entry "A" 6 101) /\
  Nonce (Msg (entry "A" 6 101)) = (Nonce (Msg (entry "A" 4 200)) + Z.of_nat 2) mod 2 ^ 64.
Proof.
  split; [exact reachable_queue_4_5_6|]. split; [reflexivity|].
  apply (nonce_at_position queue_4_5_6 "A" (entry "A" 4 200)
           [entry "A" 5 100; entry "A" 6 101] 2 (entry "A" 6 101)).
  - exact reachable_queue_4_5_6.
  - reflexivity.
  - reflexivity.
Defined.

(** X5 at [queue_4_5_6]: the largest nonce is 4 + 2. *)
Lemma LargestNonce_is_largest_witness :
  reachable queue_4_5_6 /\
  LargestNonce queue_4_5_6 "A" = (4 + Z.of_nat 2, true) /\
  (forall qm, qm ∈ List queue_4_5_6 "A" -> 4 <= Nonce (Msg qm) <= 4 + Z.of_nat 2).
Proof.
  split; [exact reachable_queue_4_5_6|].
  apply (LargestNonce_is_largest queue_4_5_6 "A" (entry "A" 4 200)
           [entry "A" 5 100; entry "A" 6 101]).
  - exact reachable_queue_4_5_6.
  - reflexivity.
  - unfold max_uint64. simpl. lia.
Defined.

(** X6 at [queue_5_6]: nonce 4 requeued, then removed. *)
Lemma Requeue_then_RemoveNext_witness :
  (Requeue queue_5_6 (msg_of "A" 4) 200).2 = None /\
  RemoveNext (Requeue queue_5_6 (msg_of "A" 4) 200).1 "A" 4
  = (set_queue queue_5_6 "A" (List queue_5_6 "A"),
     mkRemoveResult (Some (msg_of "A" 4)) true None) /\
  set_queue queue_5_6 "A" (List queue_5_6 "A") = queue_5_6.
Proof.
  split; [reflexivity|].
  destruct (Requeue_then_RemoveNext queue_5_6 (msg_of "A" 4) 200 eq_refl) as [Hrem Hsame].
  split; [exact Hrem|]. apply Hsame. by eexists.
Defined.

(** X7 at [queue_4_5_6]: nonce 4 removed, then requeued with its stamp. *)
Lemma RemoveNext_then_Requeue_witness :
  reachable queue_4_5_6 /\
  RemoveNext queue_4_5_6 "A" 4
  = (set_queue queue_4_5_6 "A" [entry "A" 5 100; entry "A" 6 101],
     mkRemoveResult (Some (msg_of "A" 4)) true None) /\
  Requeue (set_queue queue_4_5_6 "A" [entry "A" 5 100; entry "A" 6 101])
    (msg_of "A" 4) 200
  = (queue_4_5_6, None).
Proof.
  split; [exact reachable_queue_4_5_6|].
  apply (RemoveNext_then_Requeue queue_4_5_6 "A" (entry "A" 4 200)
           [entry "A" 5 100; entry "A" 6 101]).
  - exact reachable_queue_4_5_6.
  - reflexivity.
Defined.

(** X8 at [two_senders], which holds three messages. *)
Lemma Size_counts_messages_witness :
  total_length two_senders < 2 ^ 63 /\
  Size two_senders = total_length two_senders /\
  0 <= Size two_senders /\
  (Size two_senders = 0 <-> forall sender, List two_senders sender = []).
Proof.
  split; [vm_compute; reflexivity|].
  apply (Size_counts_messages two_senders). vm_compute. reflexivity.
Defined.

(** X9 at [queue_5_6]. *)
Lemma Size_follows_mutators_witness :
  Size (Enqueue queue_5_6 (msg_of "A" 7) 300).1 = Size queue_5_6 + 1 /\
  Size (Requeue queue_5_6 (msg_of "A" 4) 200).1 = Size queue_5_6 + 1 /\
  Size (RemoveNext queue_5_6 "A" 5).1 = Size queue_5_6 - 1 /\
  Size (Clear queue_5_6 "A").1 = Size queue_5_6 - Z.of_nat (length (List queue_5_6 "A")).
Proof.
  assert (Hfit : total_length queue_5_6 < 2 ^ 63 - 1) by (vm_compute; reflexivity).
  destruct (Size_follows_mutators queue_5_6 (msg_of "A" 7) 300 "A" 5 Hfit)
    as (Henq & _ & Hrem & Hclear).
  destruct (Size_follows_mutators queue_5_6 (msg_of "A" 4) 200 "A" 5 Hfit)
    as (_ & Hreq & _ & _).
  split; [apply Henq; reflexivity|]. split; [apply Hreq; reflexivity|].
  split; [apply Hrem; reflexivity | exact Hclear].
Defined.

(** X10 at [two_senders]: B has a message and is listed. *)
Lemma Queues_lists_every_sender_witness :
  NoDup (Queues two_senders) /\
  length (Queues two_senders) = size (queues two_senders) /\
  "B" ∈ Queues two_senders.
Proof.
  destruct (Queues_lists_every_sender two_senders) as (Hnodup & Hlen & Hin).
  split; [exact Hnodup|]. split; [exact Hlen|].
  apply Hin. discriminate.
Defined.

(** X11 at [two_senders], whose stamps are 50, 200 and 150. *)
Lemma Oldest_is_least_stamp_witness :
  reachable two_senders /\
  entry "A" 1 50 ∈ List two_senders "A" /\
  (forall sender' qm', qm' ∈ List two_senders sender' -> Oldest two_senders <= Stamp qm') /\
  (exists sender' qm', qm' ∈ List two_senders sender' /\ Oldest two_senders = Stamp qm').
Proof.
  assert (Hin : entry "A" 1 50 ∈ List two_senders "A").
  { apply list_elem_of_lookup. exists 0%nat. reflexivity. }
  split; [exact reachable_two_senders|]. split; [exact Hin|].
  apply (Oldest_is_least_stamp two_senders "A" (entry "A" 1 50)).
  - exact reachable_two_senders.
  - exact Hin.
Defined.

(** X13 at [two_senders] with threshold 100, for sender A. *)
Lemma ExpireBefore_keys_and_result_witness :
  (ExpireBefore two_senders 100).2 !! "A" = Some [msg_of "A" 1; msg_of "A" 2] /\
  [msg_of "A" 1; msg_of "A" 2] <> [] /\
  [msg_of "A" 1; msg_of "A" 2] = Msg <$> List two_senders "A" /\
  exists front rest, List two_senders "A" = front :: rest /\ Stamp front < 100.
Proof.
  assert (Hret : (ExpireBefore two_senders 100).2 !! "A"
                 = Some [msg_of "A" 1; msg_of "A" 2]) by (vm_compute; reflexivity).
  split; [exact Hret|].
  apply (proj2 (ExpireBefore_keys_and_result two_senders 100 "A")). exact Hret.
Defined.

(** X14 at [two_senders], whose oldest stamp is 50. *)
Lemma ExpireBefore_up_to_Oldest_witness :
  reachable two_senders /\
  50 <= Oldest two_senders /\
  ExpireBefore two_senders 50 = (two_senders, ∅).
Proof.
  split; [exact reachable_two_senders|].
  assert (Hle : 50 <= Oldest two_senders) by (vm_compute; discriminate).
  split; [exact Hle|].
  apply (ExpireBefore_up_to_Oldest two_senders 50 reachable_two_senders Hle).
Defined.

(** X15 at [queue_4_5_6]: nonces 4, 5, 6 removed in order. *)
Lemma remove_in_order_drains_witness :
  List queue_4_5_6 "A" <> [] /\
  remove_in_order queue_4_5_6 "A" [4; 5; 6]
  = (set_queue queue_4_5_6 "A" [],
     [mkRemoveResult (Some (msg_of "A" 4)) true None;
      mkRemoveResult (Some (msg_of "A" 5)) true None;
      mkRemoveResult (Some (msg_of "A" 6)) true None]).
Proof.
  split; [discriminate|].
  apply (remove_in_order_drains queue_4_5_6 "A"). discriminate.
Defined.

(** X16 at [two_senders]: A cleared, or expired with threshold 100, then a
    message of A with nonce 9. *)
Lemma any_nonce_after_reset_witness :
  ((Enqueue (Clear two_senders "A").1 (msg_of "A" 9) 300).2 = None /\
   (Requeue (Clear two_senders "A").1 (msg_of "A" 9) 300).2 = None) /\
  (expires 100 (List two_senders "A") = true /\
   (Enqueue (ExpireBefore two_senders 100).1 (msg_of "A" 9) 300).2 = None /\
   (Requeue (ExpireBefore two_senders 100).1 (msg_of "A" 9) 300).2 = None).
Proof.
  destruct (any_nonce_after_reset two_senders (msg_of "A" 9) 300 100) as [Hclear Hexp].
  split; [exact Hclear|]. split; [reflexivity|]. apply Hexp. reflexivity.
Defined.

(** X17 at the empty queue and at [queue_5]. *)
Lemma Clear_absent_witness :
  Clear empty_queue "A" = (empty_queue, false) /\
  Clear (Clear queue_5 "A").1 "A" = ((Clear queue_5 "A").1, false).
Proof.
  split.
  - apply (proj1 (Clear_absent empty_queue "A")). reflexivity.
  - apply (proj2 (Clear_absent queue_5 "A")).
Defined.

(** X18 at [queue_5_6], whose largest nonce is 6, and at the empty queue. *)
Lemma LargestNonce_gives_next_witness :
  LargestNonce queue_5_6 "A" = (6, true) /\
  (Enqueue queue_5_6 (msg_of "A" 7) 300).2 = None /\
  (LargestNonce empty_queue "A").2 = false /\
  (Enqueue empty_queue (msg_of "A" 7) 300).2 = None.
Proof.
  split; [reflexivity|]. split.
  - apply (proj1 (LargestNonce_gives_next queue_5_6 (msg_of "A" 7) 300 6) eq_refl).
    reflexivity.
  - split; [reflexivity|].
    apply (proj2 (LargestNonce_gives_next empty_queue (msg_of "A" 7) 300 0)).
    reflexivity.
Defined.

(** X19 at [queue_5_6]: nonce 8 is refused with 7 expected, and 7 is
    accepted. *)
Lemma NonceGap_names_accepted_nonce_witness :
  (Enqueue queue_5_6 (msg_of "A" 8) 300).2 = Some (NonceGap 8 7) /\
  (Enqueue queue_5_6 (msg_of "A" 7) 300).2 = None /\
  (Requeue queue_5_6 (msg_of "A" 8) 300).2 = Some (NonceGap 8 4) /\
  (Requeue queue_5_6 (msg_of "A" 4) 300).2 = None.
Proof.
  destruct (NonceGap_names_accepted_nonce queue_5_6 (msg_of "A" 8) 300 8 7) as [Henq _].
  destruct (NonceGap_names_accepted_nonce queue_5_6 (msg_of "A" 8) 300 8 4) as [_ Hreq].
  split; [reflexivity|]. split; [apply Henq; reflexivity|].
  split; [reflexivity|]. apply Hreq; reflexivity.
Defined.
